(** * Security-audit repository scanner (skills/security-audit/scripts/auditor.py)

    A shallow embedding of [RepoAuditor] and of the script's entry point.

    - Python [str] values are sequences of Unicode code points: a character
      is an [N], a text a [list N].  String literals of the source are
      written [T "..."].
    - The three compiled patterns are regular-expression syntax trees run
      by a backtracking matcher with the semantics of Python's [re]
      (greedy repetition, ordered alternation, capture groups), and
      [findall] scans left to right for non-overlapping matches.
    - The file system is a tree of named nodes; [rglob] enumerates it.
    - [scan_file] mutates the shared report and swallows exceptions: it is
      written in a state monad whose state survives a raised exception.
    - What raises outside that [try] -- [is_file()] in [audit], the
      generator of [rglob] -- is a hazard of the machine: [audit_with]
      returns no report then, and [audit] is the report on a machine
      without hazards. *)

From Stdlib Require Import String Ascii.
From Stdlib Require Import List NArith Arith Bool Lia.
From Stdlib Require Import Sorting.Sorted Sorting.Permutation.
Import ListNotations.

Local Open Scope N_scope.
Local Open Scope nat_scope.
Local Open Scope list_scope.

(** ** Characters and texts *)

Definition char := N.
Definition text := list char.

(** A source literal as a text (code points below 256). *)
Definition T (s : string) : text :=
  map N_of_ascii (list_ascii_of_string s).

Definition char_eqb (a b : char) : bool := N.eqb a b.

Fixpoint text_eqb (a b : text) : bool :=
  match a, b with
  | [], [] => true
  | x :: a', y :: b' => char_eqb x y && text_eqb a' b'
  | _, _ => false
  end.

(** [str.startswith]. *)
Fixpoint startswith (s pre : text) {struct pre} : bool :=
  match pre, s with
  | [], _ => true
  | p :: pre', x :: s' => char_eqb x p && startswith s' pre'
  | _ :: _, [] => false
  end.

(** The [in] operator on two strings: substring test. *)
Fixpoint contains (hay needle : text) : bool :=
  startswith hay needle ||
  match hay with
  | [] => false
  | _ :: hay' => contains hay' needle
  end.

(** Comparison of [str] values: lexicographic on code points. *)
Fixpoint text_ltb (a b : text) : bool :=
  match a, b with
  | _, [] => false
  | [], _ :: _ => true
  | x :: a', y :: b' => N.ltb x y || (N.eqb x y && text_ltb a' b')
  end.

Definition text_lt (a b : text) : Prop := text_ltb a b = true.

(** ** Regular expressions *)

Definition in_range (lo hi : string) (c : char) : bool :=
  match T lo, T hi with
  | [l], [h] => N.leb l c && N.leb c h
  | _, _ => false
  end.

Definition one_of (s : string) (c : char) : bool :=
  existsb (char_eqb c) (T s).

(** [\s] on a [str] pattern: the Unicode white space of [str.isspace]. *)
Definition is_space (c : char) : bool :=
  (N.leb 9 c && N.leb c 13) || (N.leb 28 c && N.leb c 32) ||
  N.eqb c 133 || N.eqb c 160 || N.eqb c 5760 ||
  (N.leb 8192 c && N.leb c 8202) || N.eqb c 8232 || N.eqb c 8233 ||
  N.eqb c 8239 || N.eqb c 8287 || N.eqb c 12288.

Inductive regex : Type :=
| Lit (s : text)                       (* a run of literal characters *)
| Cls (p : char -> bool)               (* one character of a class *)
| Opt (r : regex)                      (* r? *)
| Rep (p : char -> bool) (min : nat)   (* [class]{min,}, and + as {1,} *)
| Cat (r1 r2 : regex)
| Alt (r1 r2 : regex)
| Grp (i : nat) (r : regex).           (* capture group number i *)

(** Captured groups, most recent binding first. *)
Definition caps := list (nat * text).

Fixpoint group (i : nat) (cs : caps) : text :=
  match cs with
  | [] => []
  | (j, t) :: cs' => if Nat.eqb i j then t else group i cs'
  end.

Section Matcher.
Context {A : Type}.

Fixpoint lit (l : text) (s : text) (k : text -> option A) : option A :=
  match l with
  | [] => k s
  | c :: l' =>
      match s with
      | x :: s' => if char_eqb x c then lit l' s' k else None
      | [] => None
      end
  end.

(** Greedy repetition of a class: take the longest run first, give
    characters back one at a time while the continuation fails. *)
Fixpoint rep (p : char -> bool) (min : nat) (s : text)
    (k : text -> option A) : option A :=
  match s with
  | x :: s' =>
      if p x then
        match rep p (pred min) s' k with
        | Some a => Some a
        | None => match min with 0 => k s | S _ => None end
        end
      else match min with 0 => k s | S _ => None end
  | [] => match min with 0 => k s | S _ => None end
  end.

Fixpoint run (r : regex) (s : text) (cs : caps)
    (k : text -> caps -> option A) : option A :=
  match r with
  | Lit l => lit l s (fun s' => k s' cs)
  | Cls p =>
      match s with
      | x :: s' => if p x then k s' cs else None
      | [] => None
      end
  | Opt r1 =>
      match run r1 s cs k with
      | Some a => Some a
      | None => k s cs
      end
  | Rep p min => rep p min s (fun s' => k s' cs)
  | Cat r1 r2 => run r1 s cs (fun s' cs' => run r2 s' cs' k)
  | Alt r1 r2 =>
      match run r1 s cs k with
      | Some a => Some a
      | None => run r2 s cs k
      end
  | Grp i r1 =>
      run r1 s cs
        (fun s' cs' =>
           k s' ((i, firstn (length s - length s') s) :: cs'))
  end.
End Matcher.

(** One match attempt anchored at the head of [s]: the number of
    characters matched and the groups. *)
Definition match_at (r : regex) (s : text) : option (nat * caps) :=
  run r s [] (fun s' cs => Some (length s - length s', cs)).

(** [Pattern.finditer]: leftmost non-overlapping matches.  [skip] counts
    the characters of the current match still to be passed over. *)
Fixpoint scan (r : regex) (skip : nat) (s : text) : list (text * caps) :=
  match s with
  | [] => []
  | _ :: s' =>
      match skip with
      | S n => scan r n s'
      | 0 =>
          match match_at r s with
          | Some (len, cs) => (firstn len s, cs) :: scan r (pred len) s'
          | None => scan r 0 s'
          end
      end
  end.

Definition finditer (r : regex) (s : text) : list (text * caps) :=
  scan r 0 s.

(** [findall] of a pattern without groups: the matched texts. *)
Definition findall0 (r : regex) (s : text) : list text :=
  map fst (finditer r s).

(** [findall] of a pattern with three groups: one tuple per match, the
    empty string for a group that took no part. *)
Definition findall3 (r : regex) (s : text) : list (list text) :=
  map (fun m => [group 1 (snd m); group 2 (snd m); group 3 (snd m)])
      (finditer r s).

(** ** The three patterns of [RepoAuditor.__init__] *)

(** The negated class of the URL pattern: anything but white space, the
    single and double quote (code 34), the backquote, parentheses and
    angle brackets. *)
Definition url_char (c : char) : bool :=
  negb (is_space c || one_of "'`()<>" c || N.eqb c 34).

(** [[A-Z0-9_]] *)
Definition name_char (c : char) : bool :=
  in_range "A" "Z" c || in_range "0" "9" c || one_of "_" c.

(** The class of the two quote characters; 34 is the double quote. *)
Definition quote_char (c : char) : bool :=
  one_of "'" c || N.eqb c 34.

(** [[A-Za-z0-9+/]] *)
Definition blob_char (c : char) : bool :=
  in_range "A" "Z" c || in_range "a" "z" c || in_range "0" "9" c ||
  one_of "+/" c.

(** [https?://] followed by one or more [url_char]. *)
Definition url_pattern : regex :=
  Cat (Lit (T "http")) (Cat (Opt (Lit (T "s")))
    (Cat (Lit (T "://")) (Rep url_char 1))).

(** Three alternatives, each with its own group over [[A-Z0-9_]+]:
    [process\.env\.(NAME)], [os\.environ\[q(NAME)q\]] and [getenv\(q(NAME)q\)],
    where each [q] is one character of [quote_char]. *)
Definition env_pattern : regex :=
  Alt (Cat (Lit (T "process.env.")) (Grp 1 (Rep name_char 1)))
 (Alt (Cat (Lit (T "os.environ["))
        (Cat (Cls quote_char) (Cat (Grp 2 (Rep name_char 1))
          (Cat (Cls quote_char) (Lit (T "]"))))))
      (Cat (Lit (T "getenv("))
        (Cat (Cls quote_char) (Cat (Grp 3 (Rep name_char 1))
          (Cat (Cls quote_char) (Lit (T ")"))))))).

(** [[A-Za-z0-9+/]{128,}] *)
Definition blob_pattern : regex := Rep blob_char 128.

(** ** Paths and the file tree *)

(** [Path.parts]: the components of a path; an absolute path starts with
    the component [/]. *)
Definition path := list text.

(** What lies behind a directory entry.  [File c] is anything for which
    [is_file()] holds, [c] being what [read_text(errors='ignore')]
    returns, or [None] when opening or reading raises.  [Other] is an
    entry that is neither (socket, device, dangling link). *)
#[warnings="-register-all"]
Inductive node : Type :=
| File (content : option text)
| Other
| Dir (entries : list (text * node)).

Definition is_file (n : node) : bool :=
  match n with File _ => true | _ => false end.

(** [Path.read_text]: [None] stands for a raised exception. *)
Definition read_text (n : node) : option text :=
  match n with File c => c | _ => None end.

(** [root.rglob('*')]: every entry below [p], hidden ones included; the
    entries of a directory come first, then the enumeration of each of its
    sub-directories in turn.  Nothing is produced for a path that is not a
    directory. *)
Fixpoint rglob (p : path) (n : node) : list (path * node) :=
  match n with
  | Dir es =>
      map (fun e => (p ++ [fst e], snd e)) es ++
      flat_map (fun e => rglob (p ++ [fst e]) (snd e)) es
  | _ => []
  end.

(** [PurePath.relative_to]: the components left once [root] is removed
    from the front; [None] stands for [ValueError]. *)
Fixpoint relative_to (p root : path) {struct root} : option path :=
  match root with
  | [] => Some p
  | r :: root' =>
      match p with
      | x :: p' => if text_eqb x r then relative_to p' root' else None
      | [] => None
      end
  end.

(** [str] of a relative path: the components joined by [/], and [.] for
    the empty path. *)
Fixpoint join_parts (p : path) : text :=
  match p with
  | [] => []
  | [x] => x
  | x :: p' => x ++ T "/" ++ join_parts p'
  end.

Definition str_path (p : path) : text :=
  match p with
  | [] => T "."
  | _ => join_parts p
  end.

(** The guard of the loop in [audit]: [True] means [continue]. *)
Definition is_excluded (parts : path) : bool :=
  existsb (fun part => startswith part (T ".")) parts ||
  existsb (text_eqb (T "node_modules")) parts ||
  existsb (text_eqb (T "venv")) parts.

(** ** The report *)

Module Call.
Record t : Type := mk { file : text; call : text }.
End Call.

Module Blob.
Record t : Type := mk { file : text; length : nat }.
End Blob.

(** The two set-valued fields hold a Python [set] while the walk runs and
    a sorted list once [audit] returns; both are lists here, a set being
    a list without repetition. *)
Record report : Type := mkReport {
  network_endpoints : list text;
  env_vars : list text;
  dangerous_calls : list Call.t;
  suspicious_blobs : list Blob.t;
  files_scanned : nat
}.

Definition empty_report : report :=
  {| network_endpoints := []; env_vars := []; dangerous_calls := [];
     suspicious_blobs := []; files_scanned := 0 |}.

(** [set.add] *)
Definition set_add (x : text) (s : list text) : list text :=
  if existsb (text_eqb x) s then s else s ++ [x].

(** [sorted]: a stable sort by [<] on strings. *)
Fixpoint insert (x : text) (l : list text) : list text :=
  match l with
  | [] => [x]
  | y :: l' => if text_ltb y x then y :: insert x l' else x :: l
  end.

Definition sorted (l : list text) : list text := fold_right insert [] l.

Definition add_endpoint (url : text) (r : report) : report :=
  {| network_endpoints := set_add url (network_endpoints r);
     env_vars := env_vars r; dangerous_calls := dangerous_calls r;
     suspicious_blobs := suspicious_blobs r;
     files_scanned := files_scanned r |}.

Definition add_env_var (name : text) (r : report) : report :=
  {| network_endpoints := network_endpoints r;
     env_vars := set_add name (env_vars r);
     dangerous_calls := dangerous_calls r;
     suspicious_blobs := suspicious_blobs r;
     files_scanned := files_scanned r |}.

Definition append_call (e : Call.t) (r : report) : report :=
  {| network_endpoints := network_endpoints r; env_vars := env_vars r;
     dangerous_calls := dangerous_calls r ++ [e];
     suspicious_blobs := suspicious_blobs r;
     files_scanned := files_scanned r |}.

Definition append_blob (e : Blob.t) (r : report) : report :=
  {| network_endpoints := network_endpoints r; env_vars := env_vars r;
     dangerous_calls := dangerous_calls r;
     suspicious_blobs := suspicious_blobs r ++ [e];
     files_scanned := files_scanned r |}.

Definition count_file (r : report) : report :=
  {| network_endpoints := network_endpoints r; env_vars := env_vars r;
     dangerous_calls := dangerous_calls r;
     suspicious_blobs := suspicious_blobs r;
     files_scanned := files_scanned r + 1 |}.

(** The two assignments at the end of [audit]. *)
Definition finalize (r : report) : report :=
  {| network_endpoints := sorted (network_endpoints r);
     env_vars := sorted (env_vars r);
     dangerous_calls := dangerous_calls r;
     suspicious_blobs := suspicious_blobs r;
     files_scanned := files_scanned r |}.

(** ** Statements that mutate the report and may raise *)

(** A computation returns the report as it left it, and [None] in place
    of a value when an exception is on its way up. *)
Definition M (A : Type) : Type := report -> report * option A.

Definition ret {A} (a : A) : M A := fun r => (r, Some a).

Definition raise {A} : M A := fun r => (r, None).

Definition bind {A B} (m : M A) (f : A -> M B) : M B :=
  fun r =>
    match m r with
    | (r', Some a) => f a r'
    | (r', None) => (r', None)
    end.

Notation "x <- m ;; f" := (bind m (fun x => f))
  (at level 61, m at next level, right associativity).
Notation "m ;; f" := (bind m (fun _ => f))
  (at level 61, right associativity).

Definition modify (f : report -> report) : M unit :=
  fun r => (f r, Some tt).

Definition of_option {A} (o : option A) : M A :=
  match o with Some a => ret a | None => raise end.

Fixpoint for_ {X} (l : list X) (body : X -> M unit) : M unit :=
  match l with
  | [] => ret tt
  | x :: l' => body x ;; for_ l' body
  end.

(** [try: m except Exception: pass] *)
Definition try_pass (m : M unit) : M unit :=
  fun r => (fst (m r), Some tt).

(** ** RepoAuditor *)

Definition dangerous_fns : list text :=
  [T "eval("; T "exec("; T "spawn("; T "fork("; T "os.system(";
   T "subprocess.run("; T "setTimeout("; T "setInterval("].

Definition nonempty (s : text) : bool :=
  match s with [] => false | _ :: _ => true end.

Definition scan_file (root p : path) (n : node) : M unit :=
  try_pass (
    content <- of_option (read_text n) ;;
    for_ (findall0 url_pattern content) (fun url =>
      modify (add_endpoint url)) ;;
    for_ (findall3 env_pattern content) (fun match_ =>
      for_ match_ (fun group =>
        if nonempty group then modify (add_env_var group) else ret tt)) ;;
    for_ (findall0 blob_pattern content) (fun blob =>
      rel <- of_option (relative_to p root) ;;
      modify (append_blob
                {| Blob.file := str_path rel;
                   Blob.length := List.length blob |})) ;;
    for_ dangerous_fns (fun fn =>
      if contains content fn then
        rel <- of_option (relative_to p root) ;;
        modify (append_call {| Call.file := str_path rel; Call.call := fn |})
      else ret tt)).

(** What can go wrong outside the [try] of [scan_file].  [stat_fails p]:
    [stat] on [p] raises an error that pathlib does not turn into [False]
    (any [OSError] but [ENOENT], [ENOTDIR], [EBADF], [ELOOP]; typically
    permission denied), so that [is_dir()] and [is_file()] raise at [p].
    [list_fails p]: listing the directory [p] raises an error other than
    [PermissionError], which [rglob] lets through.  A directory that
    cannot be listed for want of permission simply shows no entries. *)
Record hazards : Type := mkHazards {
  stat_fails : path -> bool;
  list_fails : path -> bool
}.

Definition no_hazards : hazards :=
  {| stat_fails := fun _ => false; list_fails := fun _ => false |}.

Definition is_dir (n : node) : bool :=
  match n with Dir _ => true | _ => false end.

(** Does the generator [root.rglob('*')] raise before it is exhausted?
    It checks [is_dir()] on the root, then lists the root and every
    directory it comes to, filtered or not. *)
Definition rglob_raises (h : hazards) (root : path) (tree : node) : bool :=
  stat_fails h root ||
  (is_dir tree && list_fails h root) ||
  existsb (fun e => is_dir (snd e) && list_fails h (fst e)) (rglob root tree).

(** [path.is_file()] in [audit], outside any [try]. *)
Definition is_file_at (h : hazards) (e : path * node) : M bool :=
  if stat_fails h (fst e) then raise else ret (is_file (snd e)).

(** The body of the loop of [audit] for one enumerated entry. *)
Definition audit_step (h : hazards) (root : path) (e : path * node) : M unit :=
  if is_excluded (fst e) then ret tt
  else
    regular <- is_file_at h e ;;
    if regular then
      modify count_file ;; scan_file root (fst e) (snd e)
    else ret tt.

(** The loop of [audit].  An exception of the generator leaves [audit]
    like one of the loop body: how far the loop had come does not show, no
    report being returned. *)
Definition walk_with (h : hazards) (root : path) (tree : node) : M unit :=
  if rglob_raises h root tree then raise
  else for_ (rglob root tree) (audit_step h root).

(** [RepoAuditor(root).audit()] for a resolved [root] with [tree] behind
    it: the report returned, or [None] when an exception leaves [audit]. *)
Definition audit_with (h : hazards) (root : path) (tree : node)
  : option report :=
  match walk_with h root tree empty_report with
  | (r, Some _) => Some (finalize r)
  | (_, None) => None
  end.

(** The loop and the report on a tree where nothing of the above goes
    wrong: then [audit] always returns. *)
Definition walk (root : path) (tree : node) : M unit :=
  walk_with no_hazards root tree.

Definition audit (root : path) (tree : node) : report :=
  finalize (fst (walk root tree empty_report)).

(** ** The entry point *)

(** What the script sees of the machine: how [Path(target).resolve()]
    answers ([None] when it raises), what lies at a resolved path
    ([None] when nothing does), and where [stat] or a listing fails. *)
Record world : Type := mkWorld {
  resolve : text -> option path;
  lookup : path -> option node;
  faults : hazards
}.

(** What [rglob] finds at [root]: nothing to enumerate when nothing lies
    there. *)
Definition tree_at (w : world) (root : path) : node :=
  match lookup w root with Some n => n | None => Other end.

Record outcome : Type := mkOutcome {
  printed : option report;
  exit_status : nat
}.

(** [sys.argv[1] if len(sys.argv) > 1 else "."] *)
Definition target_of (argv : list text) : text :=
  match argv with
  | _ :: a :: _ => a
  | _ => T "."
  end.

Definition main (w : world) (argv : list text) : outcome :=
  let target := target_of argv in
  match resolve w target with
  | None => {| printed := None; exit_status := 1 |}
  | Some root =>
      match audit_with (faults w) root (tree_at w root) with
      | Some result => {| printed := Some result; exit_status := 0 |}
      | None => {| printed := None; exit_status := 1 |}
      end
  end.

(** ** Derived notions used in the statements *)

Definition file_endpoints (content : text) : list text :=
  findall0 url_pattern content.

Definition file_env_vars (content : text) : list text :=
  filter nonempty (concat (findall3 env_pattern content)).

Definition file_blobs (rel : path) (content : text) : list Blob.t :=
  map (fun blob => {| Blob.file := str_path rel;
                      Blob.length := List.length blob |})
      (findall0 blob_pattern content).

Definition file_calls (rel : path) (content : text) : list Call.t :=
  map (fun fn => {| Call.file := str_path rel; Call.call := fn |})
      (filter (contains content) dangerous_fns).

Definition add_all (s : list text) (xs : list text) : list text :=
  fold_left (fun s x => set_add x s) xs s.

Definition scanned (rel : path) (content : text) (r : report) : report :=
  {| network_endpoints := add_all (network_endpoints r) (file_endpoints content);
     env_vars := add_all (env_vars r) (file_env_vars content);
     dangerous_calls := dangerous_calls r ++ file_calls rel content;
     suspicious_blobs := suspicious_blobs r ++ file_blobs rel content;
     files_scanned := files_scanned r |}.

Fixpoint node_induction (P : node -> Prop)
    (HF : forall c, P (File c)) (HO : P Other)
    (HD : forall es, Forall (fun e => P (snd e)) es -> P (Dir es))
    (n : node) {struct n} : P n :=
  match n with
  | File c => HF c
  | Other => HO
  | Dir es =>
      HD es ((fix all (l : list (text * node)) : Forall (fun e => P (snd e)) l :=
                match l with
                | [] => Forall_nil _
                | e :: l' =>
                    Forall_cons e (node_induction P HF HO HD (snd e)) (all l')
                end) es)
  end.

(** One turn of the loop of [audit] on the entry [root ++ fst e]. *)
Definition visit (root : path) (r : report) (e : path * node) : report :=
  if is_excluded (root ++ fst e) then r
  else match snd e with
       | File (Some content) => scanned (fst e) content (count_file r)
       | File None => count_file r
       | _ => r
       end.

(** Entries that pass the filter and are files; those of them that can
    be read, with their text. *)
Definition counted (root : path) (e : path * node) : bool :=
  negb (is_excluded (root ++ fst e)) && is_file (snd e).

Definition text_of (root : path) (e : path * node) : option text :=
  if is_excluded (root ++ fst e) then None else read_text (snd e).

Definition per_file {X} (root : path) (f : path -> text -> list X)
    (e : path * node) : list X :=
  match text_of root e with
  | Some content => f (fst e) content
  | None => []
  end.


(** ** Sample inputs *)

Definition repo_root : path := [T "/"; T "home"; T "dev"; T "repo"].



(** A small project: one source file, a [.git] directory, a [venv] and a
    directory whose name merely ends in [venv]. *)
Definition sample_tree : node :=
  Dir [ (T "app.py",
         File (Some (T "eval(a); os.system('ls'); eval(b) os.environ['API_KEY'] https://example.com/path?x=1 and more")));
        (T ".git", Dir [(T "config", File (Some (T "url = http://git.example.org/r.git exec(")))]);
        (T "src",
         Dir [ (T "locked.txt", File None);
               (T "sock", Other);
               (T "my.venv", Dir [(T "f.js", File (Some (T "fork(1)")))]);
               (T "venv", Dir [(T "g.py", File (Some (T "spawn(1)")))]) ]) ].

(** A machine with [sample_tree] at [repo_root], which is also the
    current directory. *)
Definition sample_world : world :=
  {| resolve := fun target =>
       if text_eqb target (T ".") || text_eqb target (T "/home/dev/repo")
       then Some repo_root
       else Some [T "/"; T "nowhere"];
     lookup := fun p =>
       if list_eq_dec (list_eq_dec N.eq_dec) p repo_root
       then Some sample_tree else None;
     faults := no_hazards |}.

Definition text_eq_dec : forall a b : text, {a = b} + {a <> b} :=
  list_eq_dec N.eq_dec.

(** A path component that alone makes [is_excluded] hold. *)
Definition excluded_name (name : text) : bool :=
  startswith name (T ".") || text_eqb (T "node_modules") name ||
  text_eqb (T "venv") name.

(** The tree without any entry, at any depth, whose name is excluded. *)
Fixpoint prune (n : node) : node :=
  match n with
  | Dir es =>
      Dir (flat_map (fun e => if excluded_name (fst e) then []
                              else [(fst e, prune (snd e))]) es)
  | _ => n
  end.

(** File names of a real directory: not empty, and without a slash. *)
Definition valid_name (name : text) : bool :=
  nonempty name && negb (existsb (N.eqb 47) name).

Fixpoint valid_tree (n : node) : bool :=
  match n with
  | Dir es => forallb (fun e => valid_name (fst e) && valid_tree (snd e)) es
  | _ => true
  end.

(** ** Runs of characters *)

(** Length of the longest prefix of [s] made of characters of [p]. *)
Fixpoint span (p : char -> bool) (s : text) : nat :=
  match s with
  | x :: s' => if p x then S (span p s') else 0
  | [] => 0
  end.

(** [pre] is empty or its last character is outside [p]; [post] is empty
    or its first character is outside [p]: a run of [p] between the two
    is maximal. *)
Definition ends_outside (p : char -> bool) (pre : text) : bool :=
  match rev pre with
  | [] => true
  | z :: _ => negb (p z)
  end.

Definition starts_outside (p : char -> bool) (post : text) : bool :=
  match post with
  | [] => true
  | z :: _ => negb (p z)
  end.

(** The scheme part of a URL match at the head of [s]: its length. *)
Definition url_scheme (s : text) : option nat :=
  if startswith s (T "https://") then Some 8
  else if startswith s (T "http://") then Some 7
  else None.

(** ** The three environment idioms as texts *)

Definition dotted (name : text) : text := T "process.env." ++ name.

Definition subscript (q1 : char) (name : text) (q2 : char) : text :=
  T "os.environ[" ++ q1 :: name ++ q2 :: T "]".

Definition getenv_call (q1 : char) (name : text) (q2 : char) : text :=
  T "getenv(" ++ q1 :: name ++ q2 :: T ")".

(** [idiom], followed in the text by [post], is a match of alternative
    [i] of the pattern with [name] in its group. *)
Definition env_idiom (i : nat) (name idiom post : text) : Prop :=
  (i = 1 /\ idiom = dotted name /\ starts_outside name_char post = true) \/
  (i = 2 /\ exists q1 q2, quote_char q1 = true /\ quote_char q2 = true /\
                          idiom = subscript q1 name q2) \/
  (i = 3 /\ exists q1 q2, quote_char q1 = true /\ quote_char q2 = true /\
                          idiom = getenv_call q1 name q2).

(** The alternatives of [env_pattern] at the head of [s], one by one:
    length of the match and captured group. *)
Definition match_dotted (s : text) : option (nat * caps) :=
  if startswith s (T "process.env.") then
    let t := skipn 12 s in
    let n := span name_char t in
    if Nat.leb 1 n then Some (12 + n, [(1, firstn n t)]) else None
  else None.

Definition match_quoted (i : nat) (opening closing : text) (s : text)
  : option (nat * caps) :=
  if startswith s opening then
    match skipn (List.length opening) s with
    | q1 :: t1 =>
        let n := span name_char t1 in
        if quote_char q1 && Nat.leb 1 n then
          match skipn n t1 with
          | q2 :: t2 =>
              if quote_char q2 && startswith t2 closing
              then Some (List.length opening + 1 + n + 1 + List.length closing,
                         [(i, firstn n t1)])
              else None
          | [] => None
          end
        else None
    | [] => None
    end
  else None.

Definition or_else {A} (a b : option A) : option A :=
  match a with Some x => Some x | None => b end.

(** ** Where an idiom can begin *)

(** The first two characters of the three idioms: [pr], [os], [ge]. *)
Definition is_head (h1 h2 : char) : bool :=
  (N.eqb h1 112 && N.eqb h2 114) || (N.eqb h1 111 && N.eqb h2 115) ||
  (N.eqb h1 103 && N.eqb h2 101).

Definition idiom_head (rest : text) : bool :=
  match rest with
  | h1 :: h2 :: _ => is_head h1 h2
  | _ => false
  end.

(** Could an idiom begin with the characters [l] that end a literal? *)
Definition head_at (l : text) : bool :=
  match l with
  | c1 :: c2 :: _ => is_head c1 c2
  | [c1] => N.eqb c1 112 || N.eqb c1 111 || N.eqb c1 103
  | [] => false
  end.

(** No idiom begins inside the literal [l], its first position apart. *)
Definition free_of_heads (l : text) : bool :=
  forallb (fun d => negb (head_at (skipn d l))) (seq 1 (List.length l - 1)).

(** The characters a match can hold after its opening literal. *)
Definition body_char (c : char) : bool :=
  name_char c || quote_char c || one_of "])" c.

(** Files holding runs of 127, 128, 129 and 200 base64 characters. *)
Definition blob_tree : node :=
  Dir [ (T "keys",
         Dir [ (T "k127.txt", File (Some (T "key = '" ++ repeat 65%N 127 ++ T "';")));
               (T "k128.txt", File (Some (T "key = '" ++ repeat 65%N 128 ++ T "';")));
               (T "k129.txt", File (Some (T "key = '" ++ repeat 47%N 129 ++ T "';")));
               (T "k200.txt", File (Some (T "key = '" ++ repeat 65%N 200 ++ T "';"))) ]) ].

(** A note that quotes a page through a web archive. *)
Definition archive_tree : node :=
  Dir [ (T "notes.txt",
         File (Some (T "mirror: http://web.archive.org/web/https://example.com/path?x=1 and more"))) ].

(** A front-end module reading its settings the Vite way, and a server
    module reading a numbered key. *)
Definition vite_tree : node :=
  Dir [ (T "main.js", File (Some (T "const key = import.meta.env.API_KEY;"))) ].

Definition numbered_tree : node :=
  Dir [ (T "server.js", File (Some (T "const key = process.env.API_KEY2;"))) ].

(** ** Further sample inputs *)

(** A path that does not lie under [repo_root]. *)
Definition stray_path : path := [T "/"; T "tmp"; T "notes.py"].

(** A finding under [name/]: the entry with its path one level down. *)
Definition call_under (name : text) (c : Call.t) : Call.t :=
  {| Call.file := name ++ T "/" ++ Call.file c; Call.call := Call.call c |}.

Definition blob_under (name : text) (b : Blob.t) : Blob.t :=
  {| Blob.file := name ++ T "/" ++ Blob.file b; Blob.length := Blob.length b |}.

(** An entry of the enumeration moved one level down, under [name]. *)
Definition entry_under (name : text) (e : path * node) : path * node :=
  (name :: fst e, snd e).

(** Two directories with the same two files, listed in opposite orders. *)
Definition listed_ab : node :=
  Dir [ (T "a.py", File (Some (T "eval(1) http://b.example/ getenv('B')")));
        (T "b.js", File (Some (T "fork() http://a.example/ process.env.A"))) ].


(** ** When [audit] returns no report *)



(** ** A URL that continues an earlier one *)

(** [b] is a scheme followed by URL characters only: a match that begins
    with [b] is still open where [b] ends. *)
Definition open_url (b : text) : bool :=
  match url_scheme b with
  | Some n => forallb url_char (skipn n b)
  | None => false
  end.

(** [pre] ends inside a URL: one of its suffixes is an open URL. *)
Fixpoint ends_in_url (pre : text) : bool :=
  open_url pre ||
  match pre with
  | [] => false
  | _ :: pre' => ends_in_url pre'
  end.

(** A settings file with the address right after a key. *)
Definition config_tree : node :=
  Dir [ (T "settings.ini",
         File (Some (T "url=https://example.com/path?x=1 and more"))) ].

(** * Properties *)

(** ** Strings *)

Lemma char_eqb_eq (a b : char) : char_eqb a b = true <-> a = b.
Proof. apply N.eqb_eq. Qed.

Lemma text_eqb_eq (a b : text) : text_eqb a b = true <-> a = b.
Proof.
  revert b; induction a as [|x a IH]; intros [|y b]; simpl;
    try (split; (discriminate || reflexivity)).
  rewrite andb_true_iff, char_eqb_eq, IH.
  split; [intros [-> ->]; reflexivity | intros E; inversion E; auto].
Qed.

Lemma text_eqb_refl (a : text) : text_eqb a a = true.
Proof. apply text_eqb_eq; reflexivity. Qed.

Lemma startswith_spec (s pre : text) :
  startswith s pre = true <-> exists rest, s = pre ++ rest.
Proof.
  revert s; induction pre as [|p pre IH]; intros s; simpl.
  - split; [exists s; reflexivity | reflexivity].
  - destruct s as [|x s].
    + split; [discriminate | intros [r E]; discriminate].
    + rewrite andb_true_iff, char_eqb_eq, IH. split.
      * intros [-> [r ->]]. exists r; reflexivity.
      * intros [r E]. inversion E; subst. split; [reflexivity | exists r; reflexivity].
Qed.

Lemma contains_spec (hay needle : text) :
  contains hay needle = true <->
  exists a b, hay = a ++ needle ++ b.
Proof.
  induction hay as [|x hay IH].
  - simpl. rewrite orb_false_r, startswith_spec. split.
    + intros [r E]. exists [], r. exact E.
    + intros [a [b E]]. destruct a; [exists b; exact E | discriminate].
  - cbn [contains]. rewrite orb_true_iff, startswith_spec, IH. split.
    + intros [[r E] | [a [b E]]].
      * exists [], r. exact E.
      * exists (x :: a), b. rewrite E. reflexivity.
    + intros [a [b E]]. destruct a as [|y a].
      * left. exists b. exact E.
      * right. inversion E; subst. exists a, b. reflexivity.
Qed.

(** ** Loops over the report *)

Lemma for_fold {X} (body : X -> M unit) (g : X -> report -> report)
    (l : list X) :
  (forall x r, body x r = (g x r, Some tt)) ->
  forall r, for_ l body r = (fold_left (fun r x => g x r) l r, Some tt).
Proof.
  intros Hb. induction l as [|x l IH]; intros r; simpl.
  - reflexivity.
  - unfold bind. rewrite Hb. apply IH.
Qed.

Lemma for_modify {X} (f : X -> report -> report) (l : list X) (r : report) :
  for_ l (fun x => modify (f x)) r =
  (fold_left (fun r x => f x r) l r, Some tt).
Proof. apply for_fold. reflexivity. Qed.

Lemma fold_left_filter {X S} (f : S -> X -> S) (p : X -> bool)
    (l : list X) (s : S) :
  fold_left (fun s x => if p x then f s x else s) l s =
  fold_left f (filter p l) s.
Proof.
  revert s; induction l as [|x l IH]; intros s; simpl.
  - reflexivity.
  - destruct (p x); simpl; apply IH.
Qed.

Lemma fold_left_map {X Y S} (f : S -> Y -> S) (g : X -> Y)
    (l : list X) (s : S) :
  fold_left (fun s x => f s (g x)) l s = fold_left f (map g l) s.
Proof.
  revert s; induction l as [|x l IH]; intros s; simpl; [reflexivity | apply IH].
Qed.

Lemma fold_left_concat {X S} (f : S -> X -> S) (ll : list (list X)) (s : S) :
  fold_left (fun s l => fold_left f l s) ll s = fold_left f (concat ll) s.
Proof.
  revert s; induction ll as [|l ll IH]; intros s; simpl.
  - reflexivity.
  - rewrite fold_left_app. apply IH.
Qed.

(** ** What one file adds to the report *)

Lemma fold_add_endpoint (l : list text) (r : report) :
  fold_left (fun r x => add_endpoint x r) l r =
  {| network_endpoints := add_all (network_endpoints r) l;
     env_vars := env_vars r; dangerous_calls := dangerous_calls r;
     suspicious_blobs := suspicious_blobs r;
     files_scanned := files_scanned r |}.
Proof.
  revert r; induction l as [|x l IH]; intros r; simpl.
  - destruct r; reflexivity.
  - rewrite IH. reflexivity.
Qed.

Lemma fold_add_env_var (l : list text) (r : report) :
  fold_left (fun r x => add_env_var x r) l r =
  {| network_endpoints := network_endpoints r;
     env_vars := add_all (env_vars r) l;
     dangerous_calls := dangerous_calls r;
     suspicious_blobs := suspicious_blobs r;
     files_scanned := files_scanned r |}.
Proof.
  revert r; induction l as [|x l IH]; intros r; simpl.
  - destruct r; reflexivity.
  - rewrite IH. reflexivity.
Qed.

Lemma fold_append_blob {X} (f : X -> Blob.t) (l : list X) (r : report) :
  fold_left (fun r x => append_blob (f x) r) l r =
  {| network_endpoints := network_endpoints r; env_vars := env_vars r;
     dangerous_calls := dangerous_calls r;
     suspicious_blobs := suspicious_blobs r ++ map f l;
     files_scanned := files_scanned r |}.
Proof.
  revert r; induction l as [|x l IH]; intros r; simpl.
  - rewrite app_nil_r. destruct r; reflexivity.
  - rewrite IH. simpl. rewrite <- app_assoc. reflexivity.
Qed.

Lemma fold_append_call {X} (f : X -> Call.t) (l : list X) (r : report) :
  fold_left (fun r x => append_call (f x) r) l r =
  {| network_endpoints := network_endpoints r; env_vars := env_vars r;
     dangerous_calls := dangerous_calls r ++ map f l;
     suspicious_blobs := suspicious_blobs r;
     files_scanned := files_scanned r |}.
Proof.
  revert r; induction l as [|x l IH]; intros r; simpl.
  - rewrite app_nil_r. destruct r; reflexivity.
  - rewrite IH. simpl. rewrite <- app_assoc. reflexivity.
Qed.

Lemma bind_eq {A B} (m : M A) (f : A -> M B) (r r' : report) (a : A) :
  m r = (r', Some a) -> bind m f r = f a r'.
Proof. intros H. unfold bind. rewrite H. reflexivity. Qed.

(** A file that is read: every detector runs to its end. *)
Lemma scan_file_read (root p rel : path) (content : text) (r : report) :
  relative_to p root = Some rel ->
  scan_file root p (File (Some content)) r = (scanned rel content r, Some tt).
Proof.
  intros Hrel. unfold scan_file, try_pass. f_equal.
  rewrite (bind_eq _ _ r r content) by reflexivity.
  erewrite bind_eq by apply for_modify.
  rewrite fold_add_endpoint.
  erewrite bind_eq.
  2:{ apply (for_fold _ (fun m r =>
        fold_left (fun r g => add_env_var g r) (filter nonempty m) r)).
      intros m r0.
      rewrite (for_fold _ (fun g r => if nonempty g then add_env_var g r else r)).
      - rewrite fold_left_filter. reflexivity.
      - intros g r1. destruct (nonempty g); reflexivity. }
  rewrite (fold_left_map (fun r m => fold_left (fun r g => add_env_var g r) m r)
             (filter nonempty)).
  rewrite (fold_left_concat (fun r g => add_env_var g r)).
  rewrite concat_filter_map, fold_add_env_var.
  erewrite bind_eq.
  2:{ apply (for_fold _ (fun blob => append_blob
        {| Blob.file := str_path rel; Blob.length := List.length blob |})).
      intros blob r0. unfold bind. rewrite Hrel. reflexivity. }
  rewrite (fold_append_blob (fun blob =>
             {| Blob.file := str_path rel; Blob.length := List.length blob |})).
  rewrite (for_fold _ (fun fn r => if contains content fn
             then append_call {| Call.file := str_path rel; Call.call := fn |} r
             else r)).
  2:{ intros fn r0. destruct (contains content fn); [|reflexivity].
      unfold bind. rewrite Hrel. reflexivity. }
  rewrite (fold_left_filter (fun r fn => append_call
             {| Call.file := str_path rel; Call.call := fn |} r)).
  rewrite (fold_append_call (fun fn =>
             {| Call.file := str_path rel; Call.call := fn |})).
  reflexivity.
Qed.

(** A file whose read raises: the exception is swallowed and the report
    is left as it was. *)
Lemma scan_file_unread (root p : path) (n : node) (r : report) :
  read_text n = None -> scan_file root p n r = (r, Some tt).
Proof.
  intros H. unfold scan_file, try_pass, bind. rewrite H. reflexivity.
Qed.

(** ** The walk *)

(** The enumeration below [root] is the enumeration below the empty path
    with [root] put in front of every entry. *)
Lemma rglob_root (root : path) (tree : node) :
  rglob root tree =
  map (fun e : path * node => (root ++ fst e, snd e)) (rglob [] tree).
Proof.
  revert root. induction tree as [c| |es IH] using node_induction; intros root;
    try reflexivity.
  simpl. rewrite map_app, map_map. f_equal.
  rewrite flat_map_concat_map, (flat_map_concat_map _ es), concat_map, map_map.
  f_equal. apply map_ext_in. intros e He.
  rewrite Forall_forall in IH. rewrite (IH e He (root ++ [fst e])).
  rewrite (IH e He [fst e]), map_map. apply map_ext. intros e'. simpl.
  rewrite <- app_assoc. reflexivity.
Qed.

Lemma rglob_nonempty (tree : node) (e : path * node) :
  In e (rglob [] tree) -> fst e <> [].
Proof.
  revert e. induction tree as [c| |es IH] using node_induction; intros e;
    try (intros []).
  simpl. rewrite in_app_iff, in_map_iff, in_flat_map.
  intros [[e0 [<- _]] | [e0 [He0 Hin]]]; [discriminate |].
  rewrite rglob_root in Hin. apply in_map_iff in Hin. destruct Hin as [e1 [<- _]].
  discriminate.
Qed.

Lemma relative_to_app (root rel : path) :
  relative_to (root ++ rel) root = Some rel.
Proof.
  induction root as [|x root IH]; simpl; [reflexivity |].
  rewrite text_eqb_refl. exact IH.
Qed.

Lemma rglob_raises_no_hazards (root : path) (tree : node) :
  rglob_raises no_hazards root tree = false.
Proof.
  unfold rglob_raises. cbn [stat_fails list_fails no_hazards orb].
  rewrite andb_false_r. cbn [orb].
  induction (rglob root tree) as [|e l IH]; [reflexivity |].
  cbn [existsb]. rewrite andb_false_r. exact IH.
Qed.

Lemma walk_fold (root : path) (tree : node) (r : report) :
  walk root tree r = (fold_left (visit root) (rglob [] tree) r, Some tt).
Proof.
  unfold walk, walk_with. rewrite rglob_raises_no_hazards, rglob_root.
  generalize (rglob [] tree) as l. intros l. revert r.
  induction l as [|e l IH]; intros r; [reflexivity |].
  cbn [map for_ fold_left fst snd].
  rewrite (bind_eq _ _ r (visit root r e) tt); [apply IH |].
  unfold visit, audit_step, is_file_at. cbn [fst snd stat_fails no_hazards].
  destruct (is_excluded (root ++ fst e)); [reflexivity |].
  rewrite (bind_eq _ _ r r (is_file (snd e))) by reflexivity.
  destruct (snd e) as [[content|]| |]; cbn [is_file]; try reflexivity.
  rewrite (bind_eq _ _ r (count_file r) tt) by reflexivity.
  apply scan_file_read, relative_to_app.
Qed.







Lemma audit_fold (root : path) (tree : node) :
  audit root tree =
  finalize (fold_left (visit root) (rglob [] tree) empty_report).
Proof. unfold audit. rewrite walk_fold. reflexivity. Qed.

Lemma visit_files_scanned (root : path) (l : list (path * node)) (r : report) :
  files_scanned (fold_left (visit root) l r) =
  files_scanned r + List.length (filter (counted root) l).
Proof.
  revert r; induction l as [|e l IH]; intros r; simpl; [lia |].
  rewrite IH. unfold visit, counted.
  destruct (is_excluded (root ++ fst e)); simpl; [reflexivity |].
  destruct (snd e) as [[c|]| |]; simpl; lia.
Qed.

Lemma visit_dangerous_calls (root : path) (l : list (path * node)) (r : report) :
  dangerous_calls (fold_left (visit root) l r) =
  dangerous_calls r ++ flat_map (per_file root file_calls) l.
Proof.
  revert r; induction l as [|e l IH]; intros r; simpl.
  - rewrite app_nil_r; reflexivity.
  - rewrite IH. unfold visit, per_file, text_of.
    destruct (is_excluded (root ++ fst e)); simpl; [reflexivity |].
    destruct (snd e) as [[c|]| |]; simpl; try reflexivity.
    rewrite app_assoc; reflexivity.
Qed.

Lemma visit_suspicious_blobs (root : path) (l : list (path * node)) (r : report) :
  suspicious_blobs (fold_left (visit root) l r) =
  suspicious_blobs r ++ flat_map (per_file root file_blobs) l.
Proof.
  revert r; induction l as [|e l IH]; intros r; simpl.
  - rewrite app_nil_r; reflexivity.
  - rewrite IH. unfold visit, per_file, text_of.
    destruct (is_excluded (root ++ fst e)); simpl; [reflexivity |].
    destruct (snd e) as [[c|]| |]; simpl; try reflexivity.
    rewrite app_assoc; reflexivity.
Qed.

Lemma add_all_app (s xs ys : list text) :
  add_all s (xs ++ ys) = add_all (add_all s xs) ys.
Proof. apply fold_left_app. Qed.

Lemma visit_network_endpoints (root : path) (l : list (path * node)) (r : report) :
  network_endpoints (fold_left (visit root) l r) =
  add_all (network_endpoints r)
          (flat_map (per_file root (fun _ => file_endpoints)) l).
Proof.
  revert r; induction l as [|e l IH]; intros r; simpl; [reflexivity |].
  rewrite IH, add_all_app. f_equal. unfold visit, per_file, text_of.
  destruct (is_excluded (root ++ fst e)); simpl; [reflexivity |].
  destruct (snd e) as [[c|]| |]; reflexivity.
Qed.

Lemma visit_env_vars (root : path) (l : list (path * node)) (r : report) :
  env_vars (fold_left (visit root) l r) =
  add_all (env_vars r)
          (flat_map (per_file root (fun _ => file_env_vars)) l).
Proof.
  revert r; induction l as [|e l IH]; intros r; simpl; [reflexivity |].
  rewrite IH, add_all_app. f_equal. unfold visit, per_file, text_of.
  destruct (is_excluded (root ++ fst e)); simpl; [reflexivity |].
  destruct (snd e) as [[c|]| |]; reflexivity.
Qed.

(** ** Sets and sorting *)

Lemma existsb_text_eqb (x : text) (s : list text) :
  existsb (text_eqb x) s = true <-> In x s.
Proof.
  rewrite existsb_exists. split.
  - intros [y [Hy E]]. apply text_eqb_eq in E. subst. exact Hy.
  - intros H. exists x. split; [exact H | apply text_eqb_refl].
Qed.

Lemma set_add_In (x y : text) (s : list text) :
  In y (set_add x s) <-> y = x \/ In y s.
Proof.
  unfold set_add. destruct (existsb (text_eqb x) s) eqn:E.
  - apply existsb_text_eqb in E. split; [auto | intros [-> | H]; assumption].
  - rewrite in_app_iff. simpl. intuition.
Qed.

Lemma set_add_NoDup (x : text) (s : list text) :
  NoDup s -> NoDup (set_add x s).
Proof.
  intros H. unfold set_add. destruct (existsb (text_eqb x) s) eqn:E; [exact H |].
  assert (~ In x s) as Hx.
  { intros Hin. apply existsb_text_eqb in Hin. congruence. }
  clear E. induction H as [|y s Hy Hs IH]; simpl.
  - constructor; [intros [] | constructor].
  - constructor.
    + rewrite in_app_iff. simpl. intros [H | [H | []]]; [auto |].
      subst. apply Hx. left; reflexivity.
    + apply IH. intros H. apply Hx. right; exact H.
Qed.

Lemma add_all_In (y : text) (xs s : list text) :
  In y (add_all s xs) <-> In y s \/ In y xs.
Proof.
  revert s; induction xs as [|x xs IH]; intros s.
  - simpl. intuition.
  - change (add_all s (x :: xs)) with (add_all (set_add x s) xs).
    rewrite IH, set_add_In. simpl. intuition.
Qed.

Lemma add_all_NoDup (xs s : list text) : NoDup s -> NoDup (add_all s xs).
Proof.
  revert s; induction xs as [|x xs IH]; intros s H; [exact H |].
  change (add_all s (x :: xs)) with (add_all (set_add x s) xs).
  apply IH, set_add_NoDup, H.
Qed.

Lemma text_ltb_irrefl (a : text) : text_ltb a a = false.
Proof.
  induction a as [|x a IH]; simpl; [reflexivity |].
  rewrite N.ltb_irrefl, N.eqb_refl, IH. reflexivity.
Qed.

Lemma text_ltb_trans (a b c : text) :
  text_ltb a b = true -> text_ltb b c = true -> text_ltb a c = true.
Proof.
  revert b c; induction a as [|x a IH]; intros [|y b] [|z c]; simpl;
    try discriminate; try reflexivity.
  rewrite !orb_true_iff, !andb_true_iff, !N.ltb_lt, !N.eqb_eq.
  intros [H1 | [H1 H1']] [H2 | [H2 H2']].
  - left; lia.
  - left; lia.
  - left; lia.
  - right. split; [lia | eapply IH; eassumption].
Qed.

(** The order is total: of two different strings one is below the other. *)
Lemma text_ltb_total (a b : text) :
  text_ltb a b = false -> text_ltb b a = false -> a = b.
Proof.
  revert b; induction a as [|x a IH]; intros [|y b]; simpl;
    try discriminate; try reflexivity.
  rewrite !orb_false_iff, !andb_false_iff, !N.ltb_ge, !N.eqb_neq.
  intros [H1 H1'] [H2 H2'].
  assert (x = y) by lia. subst y. f_equal. apply IH.
  - destruct H1' as [H | H]; [congruence | exact H].
  - destruct H2' as [H | H]; [congruence | exact H].
Qed.

Lemma insert_In (x y : text) (l : list text) :
  In y (insert x l) <-> y = x \/ In y l.
Proof.
  induction l as [|z l IH]; simpl.
  - intuition.
  - destruct (text_ltb z x); simpl; [rewrite IH |]; intuition.
Qed.

Lemma sorted_In (y : text) (l : list text) : In y (sorted l) <-> In y l.
Proof.
  induction l as [|x l IH]; simpl; [tauto |].
  rewrite insert_In, IH. intuition.
Qed.

Lemma insert_StronglySorted (x : text) (l : list text) :
  ~ In x l -> StronglySorted text_lt l -> StronglySorted text_lt (insert x l).
Proof.
  intros Hx Hs. induction Hs as [|z l Hs IH Hz]; simpl.
  - constructor; constructor.
  - destruct (text_ltb z x) eqn:E.
    + constructor.
      * apply IH. intros H. apply Hx. right; exact H.
      * rewrite Forall_forall. intros y Hy. apply insert_In in Hy.
        destruct Hy as [-> | Hy]; [exact E |].
        rewrite Forall_forall in Hz. apply Hz, Hy.
    + assert (text_lt x z) as Hxz.
      { unfold text_lt. destruct (text_ltb x z) eqn:E'; [reflexivity |].
        exfalso. apply Hx. left. apply text_ltb_total; assumption. }
      constructor; [constructor; assumption |].
      constructor; [exact Hxz |].
      rewrite Forall_forall in *. intros y Hy.
      eapply text_ltb_trans; [exact Hxz | apply Hz, Hy].
Qed.

Lemma sorted_StronglySorted (l : list text) :
  NoDup l -> StronglySorted text_lt (sorted l).
Proof.
  induction 1 as [|x l Hx Hl IH]; simpl; [constructor |].
  apply insert_StronglySorted; [rewrite sorted_In; exact Hx | exact IH].
Qed.

Lemma StronglySorted_NoDup (l : list text) :
  StronglySorted text_lt l -> NoDup l.
Proof.
  induction 1 as [|x l Hs IH Hx]; constructor; [| exact IH].
  intros Hin. rewrite Forall_forall in Hx. specialize (Hx x Hin).
  unfold text_lt in Hx. rewrite text_ltb_irrefl in Hx. discriminate.
Qed.

(** ** The matcher *)

Lemma lit_spec {A} (l s : text) (k : text -> option A) :
  lit l s k = if startswith s l then k (skipn (List.length l) s) else None.
Proof.
  revert s; induction l as [|c l IH]; intros s; simpl; [reflexivity |].
  destruct s as [|x s]; [reflexivity |].
  destruct (char_eqb x c); simpl; [apply IH | reflexivity].
Qed.

Lemma lit_result {A} (l s : text) (k : text -> option A) (a : A) :
  lit l s k = Some a -> exists s', k s' = Some a.
Proof.
  rewrite lit_spec. destruct (startswith s l); [eauto | discriminate].
Qed.

Lemma rep_result {A} (p : char -> bool) (min : nat) (s : text)
    (k : text -> option A) (a : A) :
  rep p min s k = Some a -> exists s', k s' = Some a.
Proof.
  revert min; induction s as [|x s IH]; intros min; simpl.
  - destruct min; [eauto | discriminate].
  - destruct (p x).
    + destruct (rep p (pred min) s k) eqn:E.
      * intros H; inversion H; subst. eapply IH, E.
      * destruct min; [eauto | discriminate].
    + destruct min; [eauto | discriminate].
Qed.

(** A successful run is a success of its continuation. *)
Lemma run_result {A} (r : regex) (s : text) (cs : caps)
    (k : text -> caps -> option A) (a : A) :
  run r s cs k = Some a -> exists s' cs', k s' cs' = Some a.
Proof.
  revert s cs k; induction r as [l|p|r IH|p min|r1 IH1 r2 IH2|r1 IH1 r2 IH2|i r IH];
    intros s cs k; cbn [run].
  - intros H. apply lit_result in H. destruct H as [s' H]. eauto.
  - destruct s as [|x s]; [discriminate |]. destruct (p x); [eauto | discriminate].
  - destruct (run r s cs k) eqn:E.
    + intros H; inversion H; subst. eapply IH, E.
    + eauto.
  - intros H. apply rep_result in H. destruct H as [s' H]. eauto.
  - intros H. apply IH1 in H. destruct H as [s1 [cs1 H]]. eapply IH2, H.
  - destruct (run r1 s cs k) eqn:E.
    + intros H; inversion H; subst. eapply IH1, E.
    + apply IH2.
  - intros H. apply IH in H. destruct H as [s1 [cs1 H]]. eauto.
Qed.

Lemma match_at_le (r : regex) (s : text) (len : nat) (cs : caps) :
  match_at r s = Some (len, cs) -> len <= List.length s.
Proof.
  unfold match_at. intros H. apply run_result in H.
  destruct H as [s' [cs' H]]. inversion H. lia.
Qed.

(** Greedy repetition when the continuation accepts the longest run. *)
Lemma rep_longest {A} (p : char -> bool) (min : nat) (s : text)
    (k : text -> option A) (a : A) :
  min <= span p s -> k (skipn (span p s) s) = Some a ->
  rep p min s k = Some a.
Proof.
  revert min; induction s as [|x s IH]; intros min; simpl.
  - intros Hmin Hk. destruct min; [exact Hk | lia].
  - destruct (p x); simpl.
    + intros Hmin Hk. rewrite (IH (pred min)); [reflexivity | lia | exact Hk].
    + intros Hmin Hk. destruct min; [exact Hk | lia].
Qed.

Lemma rep_short {A} (p : char -> bool) (min : nat) (s : text)
    (k : text -> option A) :
  span p s < min -> rep p min s k = None.
Proof.
  revert min; induction s as [|x s IH]; intros min; simpl.
  - intros H. destruct min; [lia | reflexivity].
  - destruct (p x).
    + intros H. rewrite (IH (pred min)) by lia. destruct min; [lia | reflexivity].
    + intros H. destruct min; [lia | reflexivity].
Qed.

(** Greedy repetition before something that no character of the class
    can start: nothing is ever given back. *)
Lemma rep_closed {A} (p : char -> bool) (min : nat) (s : text)
    (k : text -> option A) :
  (forall x t, p x = true -> k (x :: t) = None) ->
  rep p min s k =
  if Nat.leb min (span p s) then k (skipn (span p s) s) else None.
Proof.
  intros Hk. revert min; induction s as [|x s IH]; intros min; simpl.
  - destruct min; reflexivity.
  - destruct (p x) eqn:Hx.
    + rewrite (IH (pred min)). cbn [skipn].
      destruct min as [|m]; cbn [pred Nat.leb].
      * destruct (k (skipn (span p s) s)); [reflexivity | apply Hk, Hx].
      * destruct (Nat.leb m (span p s)); [| reflexivity].
        destruct (k (skipn (span p s) s)); reflexivity.
    + destruct min; reflexivity.
Qed.

(** ** Runs *)

Lemma span_le (p : char -> bool) (s : text) : span p s <= List.length s.
Proof.
  induction s as [|x s IH]; simpl; [lia |]. destruct (p x); simpl; lia.
Qed.

Lemma span_all (p : char -> bool) (run post : text) :
  forallb p run = true -> starts_outside p post = true ->
  span p (run ++ post) = List.length run.
Proof.
  intros Hrun Hpost. induction run as [|x run IH]; simpl.
  - destruct post as [|z post]; [reflexivity |]. simpl in *.
    apply negb_true_iff in Hpost. rewrite Hpost. reflexivity.
  - simpl in Hrun. apply andb_true_iff in Hrun. destruct Hrun as [Hx Hrun].
    rewrite Hx, (IH Hrun). reflexivity.
Qed.

Lemma span_firstn (p : char -> bool) (s : text) :
  forallb p (firstn (span p s) s) = true.
Proof.
  induction s as [|x s IH]; simpl; [reflexivity |].
  destruct (p x) eqn:E; simpl; [rewrite E, IH |]; reflexivity.
Qed.

Lemma span_skipn (p : char -> bool) (s : text) :
  starts_outside p (skipn (span p s) s) = true.
Proof.
  induction s as [|x s IH]; simpl; [reflexivity |].
  destruct (p x) eqn:E; simpl; [exact IH | rewrite E; reflexivity].
Qed.

(** A run cannot go past a character outside the class. *)
Lemma span_stop (p : char -> bool) (a rest : text) (z : char) :
  p z = false -> span p (a ++ z :: rest) = span p (a ++ [z]).
Proof.
  intros Hz. induction a as [|x a IH]; simpl.
  - rewrite Hz. reflexivity.
  - rewrite IH. reflexivity.
Qed.

Lemma ends_outside_snoc (p : char -> bool) (a : text) (z : char) :
  ends_outside p (a ++ [z]) = negb (p z).
Proof. unfold ends_outside. rewrite rev_app_distr. reflexivity. Qed.

Lemma ends_outside_inv (p : char -> bool) (pre : text) :
  ends_outside p pre = true ->
  pre = [] \/ exists a z, pre = a ++ [z] /\ p z = false.
Proof.
  destruct pre as [|x pre] using rev_ind; [left; reflexivity |].
  rewrite ends_outside_snoc, negb_true_iff. intros H. right. eauto.
Qed.

(** A suffix of a text that ends outside the class ends outside it too. *)
Lemma ends_outside_suffix (p : char -> bool) (a b : text) :
  ends_outside p (a ++ b) = true -> ends_outside p b = true.
Proof.
  destruct b as [|z b] using rev_ind; [reflexivity |].
  rewrite app_assoc, !ends_outside_snoc. tauto.
Qed.

(** ** Scanning *)

Lemma scan_skip (r : regex) (k : nat) (s : text) :
  scan r k s = scan r 0 (skipn k s).
Proof.
  revert k; induction s as [|x s IH]; intros [|k]; try reflexivity.
  cbn [scan skipn]. apply IH.
Qed.

(** When every attempt that starts inside [pre] behaves as it does on
    [pre] alone, the matches of [pre ++ rest] are those of [pre] followed
    by those of [rest]. *)
Lemma scan_app (r : regex) (pre rest : text) :
  (forall a b, pre = a ++ b -> b <> [] ->
               match_at r (b ++ rest) = match_at r b) ->
  forall k, k <= List.length pre ->
  scan r k (pre ++ rest) = scan r k pre ++ scan r 0 rest.
Proof.
  induction pre as [|x pre IH]; intros Hloc k Hk.
  - simpl in Hk. replace k with 0 by lia. destruct rest; reflexivity.
  - assert (forall a b, pre = a ++ b -> b <> [] ->
              match_at r (b ++ rest) = match_at r b) as Hloc'.
    { intros a b E Hb. apply (Hloc (x :: a) b); [rewrite E; reflexivity | exact Hb]. }
    destruct k as [|k]; cbn [app scan].
    + change (x :: pre ++ rest) with ((x :: pre) ++ rest).
      rewrite (Hloc [] (x :: pre)) by (reflexivity || discriminate).
      destruct (match_at r (x :: pre)) as [[len cs]|] eqn:E.
      * pose proof (match_at_le _ _ _ _ E) as Hlen. cbn [List.length] in Hlen.
        rewrite firstn_app.
        replace (len - List.length (x :: pre)) with 0 by (cbn [List.length]; lia).
        cbn [firstn]. rewrite app_nil_r.
        rewrite (IH Hloc' (pred len)) by lia. reflexivity.
      * apply (IH Hloc' 0). lia.
    + apply (IH Hloc' k). simpl in Hk. lia.
Qed.

(** When no match that starts inside [pre] runs past its end, every match
    of [rest] is a match of [pre ++ rest]. *)
Lemma scan_reach (r : regex) (pre rest : text) :
  (forall a b len cs, pre = a ++ b -> b <> [] ->
     match_at r (b ++ rest) = Some (len, cs) -> len <= List.length b) ->
  forall k, k <= List.length pre ->
  exists found, scan r k (pre ++ rest) = found ++ scan r 0 rest.
Proof.
  induction pre as [|x pre IH]; intros Hloc k Hk.
  - simpl in Hk. replace k with 0 by lia. exists []. reflexivity.
  - assert (forall a b len cs, pre = a ++ b -> b <> [] ->
              match_at r (b ++ rest) = Some (len, cs) -> len <= List.length b)
      as Hloc'.
    { intros a b len cs E Hb. apply (Hloc (x :: a) b); [rewrite E; reflexivity | exact Hb]. }
    destruct k as [|k]; cbn [app scan].
    + destruct (match_at r (x :: pre ++ rest)) as [[len cs]|] eqn:E.
      * assert (len <= List.length (x :: pre)) as Hlen.
        { apply (Hloc [] (x :: pre) len cs); [reflexivity | discriminate | exact E]. }
        cbn [List.length] in Hlen.
        destruct (IH Hloc' (pred len)) as [found Hf]; [lia |].
        rewrite Hf. eexists (_ :: found). reflexivity.
      * apply (IH Hloc' 0). lia.
    + apply (IH Hloc' k). simpl in Hk. lia.
Qed.

(** ** A pattern that is one repeated class *)

Lemma rep_match_at (p : char -> bool) (min : nat) (s : text) :
  match_at (Rep p min) s =
  if Nat.leb min (span p s) then Some (span p s, []) else None.
Proof.
  unfold match_at. cbn [run].
  destruct (Nat.leb min (span p s)) eqn:E.
  - apply Nat.leb_le in E. apply rep_longest; [exact E |].
    rewrite length_skipn. pose proof (span_le p s). do 2 f_equal. lia.
  - apply Nat.leb_gt in E. apply rep_short, E.
Qed.

Lemma rep_local (p : char -> bool) (min : nat) (b rest : text) :
  b <> [] -> ends_outside p b = true ->
  match_at (Rep p min) (b ++ rest) = match_at (Rep p min) b.
Proof.
  intros Hb Hends. apply ends_outside_inv in Hends.
  destruct Hends as [-> | [b0 [z [-> Hz]]]]; [contradiction |].
  rewrite !rep_match_at, <- app_assoc. cbn [app].
  rewrite span_stop by exact Hz. reflexivity.
Qed.

Lemma rep_scan_app (p : char -> bool) (min : nat) (pre rest : text) :
  ends_outside p pre = true ->
  scan (Rep p min) 0 (pre ++ rest) =
  scan (Rep p min) 0 pre ++ scan (Rep p min) 0 rest.
Proof.
  intros Hends. apply scan_app; [| lia].
  intros a b E Hb. apply rep_local; [exact Hb |].
  apply (ends_outside_suffix p a). rewrite <- E. exact Hends.
Qed.

Lemma skipn_length_app {X} (a b : list X) : skipn (List.length a) (a ++ b) = b.
Proof. induction a; simpl; auto. Qed.

Lemma firstn_length_app {X} (a b : list X) : firstn (List.length a) (a ++ b) = a.
Proof. induction a; simpl; [reflexivity | f_equal; assumption]. Qed.

(** A maximal run at the head of the text is one match when it is long
    enough, and no match at all when it is not. *)
Lemma rep_scan_run (p : char -> bool) (min : nat) (run post : text) :
  0 < min -> forallb p run = true -> starts_outside p post = true ->
  scan (Rep p min) 0 (run ++ post) =
  (if Nat.leb min (List.length run) then [(run, [])] else []) ++
  scan (Rep p min) 0 post.
Proof.
  intros Hmin Hrun Hpost.
  destruct (Nat.leb min (List.length run)) eqn:E.
  - destruct run as [|x run]; [apply Nat.leb_le in E; simpl in E; lia |].
    cbn [app scan].
    change (x :: run ++ post) with ((x :: run) ++ post).
    rewrite rep_match_at, (span_all p _ _ Hrun Hpost), E.
    rewrite firstn_length_app. cbn [List.length pred].
    rewrite scan_skip, skipn_length_app. reflexivity.
  - apply Nat.leb_gt in E. cbn [app].
    induction run as [|x run IH]; [reflexivity |].
    cbn [app scan].
    change (x :: run ++ post) with ((x :: run) ++ post).
    rewrite rep_match_at, (span_all p _ _ Hrun Hpost).
    apply Nat.leb_gt in E. rewrite E. apply Nat.leb_gt in E.
    simpl in Hrun. apply andb_true_iff in Hrun.
    apply IH; [apply Hrun | simpl in E; lia].
Qed.

(** ** The URL pattern *)

Lemma rep_final {A} (p : char -> bool) (min : nat) (s : text) (f : text -> A) :
  rep p min s (fun s' => Some (f s')) =
  if Nat.leb min (span p s) then Some (f (skipn (span p s) s)) else None.
Proof.
  destruct (Nat.leb min (span p s)) eqn:E.
  - apply Nat.leb_le in E. apply rep_longest; [exact E | reflexivity].
  - apply Nat.leb_gt in E. apply rep_short, E.
Qed.

Lemma startswith_length (s l : text) :
  startswith s l = true -> s = l ++ skipn (List.length l) s.
Proof.
  intros H. apply startswith_spec in H. destruct H as [rest ->].
  rewrite skipn_length_app. reflexivity.
Qed.

Lemma match_length (s : text) (n m : nat) :
  n <= List.length s -> m <= List.length (skipn n s) ->
  List.length s - List.length (skipn m (skipn n s)) = n + m.
Proof. rewrite !length_skipn. lia. Qed.

Lemma startswith_app (s a b : text) :
  startswith s (a ++ b) =
  startswith s a && startswith (skipn (List.length a) s) b.
Proof.
  revert s; induction a as [|c a IH]; intros s; [reflexivity |].
  destruct s as [|x s]; cbn [app startswith List.length skipn].
  - reflexivity.
  - rewrite IH, andb_assoc. reflexivity.
Qed.

Lemma startswith_le (s l : text) :
  startswith s l = true -> List.length l <= List.length s.
Proof.
  intros H. apply startswith_spec in H. destruct H as [rest ->].
  rewrite length_app. lia.
Qed.

Lemma url_match_at (s : text) :
  match_at url_pattern s =
  match url_scheme s with
  | Some n =>
      if Nat.leb 1 (span url_char (skipn n s))
      then Some (n + span url_char (skipn n s), [])
      else None
  | None => None
  end.
Proof.
  unfold match_at, url_pattern, url_scheme. cbn [run].
  change (T "https://") with (T "http" ++ T "s" ++ T "://").
  change (T "http://") with (T "http" ++ T "://").
  rewrite !startswith_app, !lit_spec.
  change (List.length (T "http")) with 4. change (List.length (T "s")) with 1.
  destruct (startswith s (T "http")) eqn:A; [| reflexivity]. cbn [andb].
  apply startswith_le in A. change (List.length (T "http")) with 4 in A.
  rewrite ?lit_spec, !rep_final, !skipn_skipn.
  change (List.length (T "://")) with 3. change (List.length (T "s")) with 1.
  cbn [Nat.add].
  destruct (startswith (skipn 4 s) (T "s")) eqn:B; cbn [andb].
  - assert (startswith (skipn 4 s) (T "://") = false) as D.
    { destruct (skipn 4 s) as [|x t]; [reflexivity |].
      cbn in B |- *. apply andb_true_iff in B. destruct B as [B _].
      apply char_eqb_eq in B. subst x. reflexivity. }
    rewrite D.
    destruct (startswith (skipn 5 s) (T "://")) eqn:C.
    + apply startswith_le in C. change (List.length (T "://")) with 3 in C.
      pose proof (span_le url_char (skipn 8 s)) as Hle.
      destruct (Nat.leb 1 (span url_char (skipn 8 s))); [| reflexivity].
      rewrite length_skipn in *. do 2 f_equal. lia.
    + reflexivity.
  - destruct (startswith (skipn 4 s) (T "://")) eqn:D; [| reflexivity].
    apply startswith_le in D. change (List.length (T "://")) with 3 in D.
    pose proof (span_le url_char (skipn 7 s)) as Hle.
    destruct (Nat.leb 1 (span url_char (skipn 7 s))); [| reflexivity].
    rewrite length_skipn in *. do 2 f_equal. lia.
Qed.

Lemma startswith_self (l t : text) : startswith (l ++ t) l = true.
Proof. apply startswith_spec. exists t. reflexivity. Qed.

(** A literal made of class characters cannot reach past a character
    outside the class. *)
Lemma startswith_stop (p : char -> bool) (l b rest : text) :
  forallb p l = true -> b <> [] -> ends_outside p b = true ->
  startswith (b ++ rest) l = startswith b l.
Proof.
  revert b; induction l as [|c l IH]; intros b Hl Hb Hends; [reflexivity |].
  destruct b as [|x b]; [contradiction |].
  cbn [forallb] in Hl. apply andb_true_iff in Hl. destruct Hl as [Hc Hl].
  cbn [app startswith]. destruct b as [|y b].
  - unfold ends_outside in Hends. cbn in Hends. apply negb_true_iff in Hends.
    destruct (char_eqb x c) eqn:E; [| reflexivity].
    apply char_eqb_eq in E. congruence.
  - rewrite (IH (y :: b)); [reflexivity | exact Hl | discriminate |].
    apply (ends_outside_suffix p [x]). exact Hends.
Qed.

Lemma span_local (p : char -> bool) (b rest : text) :
  b <> [] -> ends_outside p b = true -> span p (b ++ rest) = span p b.
Proof.
  intros Hb Hends. apply ends_outside_inv in Hends.
  destruct Hends as [-> | [b0 [z [-> Hz]]]]; [contradiction |].
  rewrite <- app_assoc. apply span_stop, Hz.
Qed.

Lemma url_scheme_inv (s : text) (n : nat) :
  url_scheme s = Some n ->
  exists scheme, (scheme = T "http://" \/ scheme = T "https://") /\
                 n = List.length scheme /\ s = scheme ++ skipn n s.
Proof.
  unfold url_scheme.
  destruct (startswith s (T "https://")) eqn:E8.
  - intros H; inversion H; subst. exists (T "https://").
    split; [right; reflexivity | split; [reflexivity |]].
    apply startswith_length, E8.
  - destruct (startswith s (T "http://")) eqn:E7; [| discriminate].
    intros H; inversion H; subst. exists (T "http://").
    split; [left; reflexivity | split; [reflexivity |]].
    apply startswith_length, E7.
Qed.

Lemma url_scheme_app (scheme t : text) :
  scheme = T "http://" \/ scheme = T "https://" ->
  url_scheme (scheme ++ t) = Some (List.length scheme).
Proof. intros [-> | ->]; reflexivity. Qed.

Lemma url_local (b rest : text) :
  b <> [] -> ends_outside url_char b = true ->
  match_at url_pattern (b ++ rest) = match_at url_pattern b.
Proof.
  intros Hb Hends. rewrite !url_match_at.
  assert (url_scheme (b ++ rest) = url_scheme b) as ->.
  { unfold url_scheme.
    rewrite !(startswith_stop url_char) by (reflexivity || assumption).
    reflexivity. }
  destruct (url_scheme b) as [n|] eqn:E; [| reflexivity].
  apply url_scheme_inv in E. destruct E as [scheme [Hs [-> E]]].
  assert (skipn (List.length scheme) b <> []) as Hne.
  { intros Hnil. rewrite Hnil, app_nil_r in E. rewrite E in Hends.
    destruct Hs as [-> | ->]; discriminate Hends. }
  assert (ends_outside url_char (skipn (List.length scheme) b) = true) as He.
  { apply (ends_outside_suffix url_char scheme). rewrite <- E. exact Hends. }
  rewrite skipn_app.
  replace (List.length scheme - List.length b) with 0.
  2:{ rewrite E at 1. rewrite length_app. lia. }
  cbn [skipn]. rewrite span_local by assumption. reflexivity.
Qed.

Lemma url_scan_app (pre rest : text) :
  ends_outside url_char pre = true ->
  scan url_pattern 0 (pre ++ rest) =
  scan url_pattern 0 pre ++ scan url_pattern 0 rest.
Proof.
  intros Hends. apply scan_app; [| lia].
  intros a b E Hb. apply url_local; [exact Hb |].
  apply (ends_outside_suffix url_char a). rewrite <- E. exact Hends.
Qed.

(** The match found at the head of a text, and where scanning resumes. *)
Lemma scan_hit (r : regex) (s : text) (len : nat) (cs : caps) :
  0 < len -> match_at r s = Some (len, cs) ->
  scan r 0 s = (firstn len s, cs) :: scan r 0 (skipn len s).
Proof.
  intros Hlen E. destruct s as [|x s].
  - apply match_at_le in E. simpl in E. lia.
  - cbn [scan]. rewrite E, scan_skip.
    destruct len as [|len]; [lia |]. reflexivity.
Qed.

Lemma url_scan_head (scheme run post : text) :
  scheme = T "http://" \/ scheme = T "https://" ->
  run <> [] -> forallb url_char run = true ->
  starts_outside url_char post = true ->
  scan url_pattern 0 (scheme ++ run ++ post) =
  (scheme ++ run, []) :: scan url_pattern 0 post.
Proof.
  intros Hs Hne Hrun Hpost.
  assert (match_at url_pattern (scheme ++ run ++ post) =
          Some (List.length (scheme ++ run), [])) as E.
  { rewrite url_match_at, (url_scheme_app _ _ Hs), skipn_length_app.
    rewrite (span_all _ _ _ Hrun Hpost), length_app.
    destruct run; [contradiction | reflexivity]. }
  assert (0 < List.length (scheme ++ run)) as Hpos.
  { rewrite length_app. destruct run; [contradiction | simpl; lia]. }
  rewrite (scan_hit _ _ _ _ Hpos E).
  rewrite app_assoc, firstn_length_app, skipn_length_app. reflexivity.
Qed.

(** Every match reported by a scan is a match of the pattern at some
    position of the text. *)
Lemma scan_sound (r : regex) (s : text) (k : nat) (m : text) (cs : caps) :
  In (m, cs) (scan r k s) ->
  exists a b len, s = a ++ b /\ match_at r b = Some (len, cs) /\
                  m = firstn len b.
Proof.
  revert k; induction s as [|x s IH]; intros k; [intros [] |].
  cbn [scan]. destruct k as [|k].
  - destruct (match_at r (x :: s)) as [[len cs']|] eqn:E.
    + intros [H | H].
      * inversion H; subst. exists [], (x :: s), len. auto.
      * apply IH in H. destruct H as [a [b [l [-> H]]]].
        exists (x :: a), b, l. auto.
    + intros H. apply IH in H. destruct H as [a [b [l [-> H]]]].
      exists (x :: a), b, l. auto.
  - intros H. apply IH in H. destruct H as [a [b [l [-> H]]]].
    exists (x :: a), b, l. auto.
Qed.

Lemma url_match_sound (s : text) (len : nat) (cs : caps) :
  match_at url_pattern s = Some (len, cs) ->
  exists scheme run post,
    s = scheme ++ run ++ post /\
    (scheme = T "http://" \/ scheme = T "https://") /\
    run <> [] /\ forallb url_char run = true /\
    starts_outside url_char post = true /\
    firstn len s = scheme ++ run.
Proof.
  rewrite url_match_at. destruct (url_scheme s) as [n|] eqn:E; [| discriminate].
  apply url_scheme_inv in E. destruct E as [scheme [Hs [-> E]]].
  set (t := skipn (List.length scheme) s) in *.
  destruct (Nat.leb 1 (span url_char t)) eqn:H1; [| discriminate].
  intros H; inversion H; subst len cs. apply Nat.leb_le in H1.
  exists scheme, (firstn (span url_char t) t), (skipn (span url_char t) t).
  rewrite firstn_skipn. split; [exact E |]. split; [exact Hs |].
  split; [| split; [apply span_firstn | split; [apply span_skipn |]]].
  - intros Hnil. apply (f_equal (@List.length _)) in Hnil.
    rewrite length_firstn in Hnil. pose proof (span_le url_char t).
    cbn [List.length] in Hnil. lia.
  - rewrite E at 1. rewrite firstn_app, firstn_all2 by lia.
    f_equal. f_equal. lia.
Qed.

(** ** The environment pattern *)

Lemma name_char_spec (x : char) :
  name_char x = true <->
  ((65 <= x <= 90) \/ (48 <= x <= 57) \/ x = 95)%N.
Proof.
  unfold name_char, in_range, one_of.
  change (T "A") with [65%N]. change (T "Z") with [90%N].
  change (T "0") with [48%N]. change (T "9") with [57%N].
  change (T "_") with [95%N]. cbn [existsb]. unfold char_eqb.
  rewrite orb_false_r, !orb_true_iff, !andb_true_iff, !N.leb_le, N.eqb_eq.
  intuition.
Qed.

Lemma quote_char_spec (x : char) :
  quote_char x = true <-> (x = 39 \/ x = 34)%N.
Proof.
  unfold quote_char, one_of. change (T "'") with [39%N].
  cbn [existsb]. unfold char_eqb.
  rewrite orb_false_r, !orb_true_iff, !N.eqb_eq. intuition.
Qed.

Lemma name_not_quote (x : char) : name_char x = true -> quote_char x = false.
Proof.
  intros H. apply name_char_spec in H.
  destruct (quote_char x) eqn:Q; [| reflexivity].
  apply quote_char_spec in Q. lia.
Qed.

(** The part common to the second and third alternatives: a quote, the
    captured name, a quote and the closing literal. *)
Lemma quoted_run {A} (i : nat) (close t : text) (cs : caps)
    (k : text -> caps -> option A) :
  run (Cat (Cls quote_char) (Cat (Grp i (Rep name_char 1))
         (Cat (Cls quote_char) (Lit close)))) t cs k =
  match t with
  | q1 :: t1 =>
      if quote_char q1 then
        if Nat.leb 1 (span name_char t1) then
          match skipn (span name_char t1) t1 with
          | q2 :: t2 =>
              if quote_char q2 then
                if startswith t2 close
                then k (skipn (List.length close) t2)
                       ((i, firstn (span name_char t1) t1) :: cs)
                else None
              else None
          | [] => None
          end
        else None
      else None
  | [] => None
  end.
Proof.
  cbn [run]. destruct t as [|q1 t1]; [reflexivity |].
  destruct (quote_char q1); [| reflexivity].
  rewrite rep_closed.
  2:{ intros x t Hx. rewrite (name_not_quote x Hx). reflexivity. }
  destruct (Nat.leb 1 (span name_char t1)); [| reflexivity].
  destruct (skipn (span name_char t1) t1) as [|q2 t2] eqn:E; [reflexivity |].
  destruct (quote_char q2); [| reflexivity].
  rewrite lit_spec. destruct (startswith t2 close); [| reflexivity].
  do 4 f_equal.
  apply (f_equal (@List.length _)) in E. rewrite length_skipn in E.
  pose proof (span_le name_char t1). lia.
Qed.

Lemma env_match_at (s : text) :
  match_at env_pattern s =
  or_else (match_dotted s)
    (or_else (match_quoted 2 (T "os.environ[") (T "]") s)
             (match_quoted 3 (T "getenv(") (T ")") s)).
Proof.
  assert (forall i opening closing,
    run (Cat (Lit opening) (Cat (Cls quote_char) (Cat (Grp i (Rep name_char 1))
           (Cat (Cls quote_char) (Lit closing))))) s []
        (fun s' cs => Some (List.length s - List.length s', cs)) =
    match_quoted i opening closing s) as Hq.
  { intros i opening closing. cbn [run]. rewrite lit_spec. unfold match_quoted.
    destruct (startswith s opening) eqn:Eo; [| reflexivity].
    apply startswith_length in Eo.
    pose proof (quoted_run i closing (skipn (List.length opening) s) []
                  (fun s' cs => Some (List.length s - List.length s', cs))) as Q.
    cbn [run] in Q. rewrite Q. clear Q.
    destruct (skipn (List.length opening) s) as [|q1 t1] eqn:E1; [reflexivity |].
    destruct (quote_char q1); [| reflexivity]. cbn [andb].
    destruct (Nat.leb 1 (span name_char t1)); [| reflexivity].
    destruct (skipn (span name_char t1) t1) as [|q2 t2] eqn:E2; [reflexivity |].
    destruct (quote_char q2); [| reflexivity]. cbn [andb].
    destruct (startswith t2 closing) eqn:Ec; [| reflexivity].
    apply startswith_le in Ec.
    apply (f_equal (@List.length _)) in Eo, E2.
    rewrite length_app in Eo. cbn [List.length] in Eo, E2.
    rewrite length_skipn in E2. pose proof (span_le name_char t1).
    rewrite length_skipn. do 2 f_equal. lia. }
  unfold match_at, env_pattern. cbn [run] in *. rewrite !Hq. clear Hq.
  unfold or_else. f_equal.
  rewrite lit_spec. unfold match_dotted.
  destruct (startswith s (T "process.env.")) eqn:Eo; [| reflexivity].
  apply startswith_le in Eo. change (List.length (T "process.env.")) with 12 in *.
  rewrite rep_final. cbv zeta.
  pose proof (span_le name_char (skipn 12 s)).
  destruct (Nat.leb 1 (span name_char (skipn 12 s))); [| reflexivity].
  set (n := span name_char (skipn 12 s)) in *.
  replace (List.length s - List.length (skipn n (skipn 12 s))) with (12 + n)
    by (rewrite !length_skipn in *; lia).
  replace (List.length (skipn 12 s) - List.length (skipn n (skipn 12 s)))
    with n by (rewrite !length_skipn in *; lia).
  reflexivity.
Qed.

Lemma span_name_quote (name rest : text) (q : char) :
  forallb name_char name = true -> quote_char q = true ->
  span name_char (name ++ q :: rest) = List.length name.
Proof.
  intros Hname Hq. apply span_all; [exact Hname |].
  cbn [starts_outside]. destruct (name_char q) eqn:E; [| reflexivity].
  apply name_not_quote in E. congruence.
Qed.

Lemma match_dotted_complete (name post : text) :
  name <> [] -> forallb name_char name = true ->
  starts_outside name_char post = true ->
  match_dotted (dotted name ++ post) =
  Some (List.length (dotted name), [(1, name)]).
Proof.
  intros Hne Hname Hpost. unfold match_dotted, dotted.
  rewrite <- app_assoc, startswith_self.
  change 12 with (List.length (T "process.env.")).
  rewrite skipn_length_app. cbv zeta.
  rewrite (span_all _ _ _ Hname Hpost), firstn_length_app, length_app.
  destruct name; [contradiction | reflexivity].
Qed.

Lemma match_quoted_complete (i : nat) (opening closing : text)
    (q1 q2 : char) (name post : text) :
  quote_char q1 = true -> quote_char q2 = true ->
  name <> [] -> forallb name_char name = true ->
  match_quoted i opening closing
    ((opening ++ q1 :: name ++ q2 :: closing) ++ post) =
  Some (List.length (opening ++ q1 :: name ++ q2 :: closing), [(i, name)]).
Proof.
  intros Hq1 Hq2 Hne Hname. unfold match_quoted.
  rewrite <- app_assoc, startswith_self, skipn_length_app.
  cbn [app]. rewrite <- app_assoc. cbn [app].
  rewrite (span_name_quote _ _ _ Hname Hq2), Hq1.
  rewrite skipn_length_app, firstn_length_app, Hq2, startswith_self.
  destruct name as [|x name]; [contradiction |]. cbn [List.length Nat.leb andb].
  do 2 f_equal. rewrite !length_app. cbn [List.length].
  rewrite length_app. cbn [List.length]. lia.
Qed.

Lemma env_match_complete (i : nat) (name idiom post : text) :
  env_idiom i name idiom post ->
  name <> [] -> forallb name_char name = true ->
  match_at env_pattern (idiom ++ post) = Some (List.length idiom, [(i, name)]).
Proof.
  intros [[-> [-> Hpost]] | [[-> [q1 [q2 [Hq1 [Hq2 ->]]]]] |
                             [-> [q1 [q2 [Hq1 [Hq2 ->]]]]]]] Hne Hname;
    rewrite env_match_at.
  - rewrite match_dotted_complete by assumption. reflexivity.
  - replace (match_dotted (subscript q1 name q2 ++ post)) with
      (@None (nat * caps)) by reflexivity.
    unfold subscript. rewrite match_quoted_complete by assumption.
    reflexivity.
  - replace (match_dotted (getenv_call q1 name q2 ++ post)) with
      (@None (nat * caps)) by reflexivity.
    replace (match_quoted 2 (T "os.environ[") (T "]")
               (getenv_call q1 name q2 ++ post)) with
      (@None (nat * caps)) by reflexivity.
    unfold getenv_call. rewrite match_quoted_complete by assumption.
    reflexivity.
Qed.

Lemma match_dotted_sound (s : text) (len : nat) (cs : caps) :
  match_dotted s = Some (len, cs) ->
  exists name post,
    s = dotted name ++ post /\ name <> [] /\
    forallb name_char name = true /\ starts_outside name_char post = true /\
    len = List.length (dotted name) /\ cs = [(1, name)].
Proof.
  unfold match_dotted.
  destruct (startswith s (T "process.env.")) eqn:Eo; [| discriminate].
  apply startswith_length in Eo.
  change (List.length (T "process.env.")) with 12 in Eo. cbv zeta.
  set (t := skipn 12 s) in *. set (n := span name_char t).
  destruct (Nat.leb 1 n) eqn:En; [| discriminate]. apply Nat.leb_le in En.
  intros H; inversion H; subst len cs.
  exists (firstn n t), (skipn n t). unfold dotted.
  rewrite <- app_assoc, firstn_skipn.
  split; [exact Eo |]. split.
  { intros Hnil. apply (f_equal (@List.length _)) in Hnil.
    rewrite length_firstn in Hnil. pose proof (span_le name_char t).
    fold n in H0. cbn [List.length] in Hnil. lia. }
  split; [apply span_firstn |]. split; [apply span_skipn |].
  split; [| reflexivity].
  rewrite length_app, length_firstn. pose proof (span_le name_char t).
  fold n in H0. change (List.length (T "process.env.")) with 12. lia.
Qed.

Lemma match_quoted_sound (i : nat) (opening closing s : text)
    (len : nat) (cs : caps) :
  match_quoted i opening closing s = Some (len, cs) ->
  exists q1 name q2 post,
    s = (opening ++ q1 :: name ++ q2 :: closing) ++ post /\
    quote_char q1 = true /\ quote_char q2 = true /\ name <> [] /\
    forallb name_char name = true /\
    len = List.length (opening ++ q1 :: name ++ q2 :: closing) /\
    cs = [(i, name)].
Proof.
  unfold match_quoted.
  destruct (startswith s opening) eqn:Eo; [| discriminate].
  apply startswith_length in Eo.
  destruct (skipn (List.length opening) s) as [|q1 t1] eqn:E1; [discriminate |].
  cbv zeta. set (n := span name_char t1).
  destruct (quote_char q1) eqn:Hq1; [| discriminate]. cbn [andb].
  destruct (Nat.leb 1 n) eqn:En; [| discriminate]. apply Nat.leb_le in En.
  destruct (skipn n t1) as [|q2 t2] eqn:E2; [discriminate |].
  destruct (quote_char q2) eqn:Hq2; [| discriminate]. cbn [andb].
  destruct (startswith t2 closing) eqn:Ec; [| discriminate].
  apply startswith_length in Ec.
  intros H; inversion H; subst len cs.
  pose proof (span_le name_char t1) as Hle. fold n in Hle.
  exists q1, (firstn n t1), q2, (skipn (List.length closing) t2).
  split.
  { rewrite <- app_assoc. cbn [app]. rewrite <- app_assoc. cbn [app].
    rewrite <- Ec, <- E2, firstn_skipn. exact Eo. }
  split; [exact Hq1 |]. split; [exact Hq2 |]. split.
  { intros Hnil. apply (f_equal (@List.length _)) in Hnil.
    rewrite length_firstn in Hnil. cbn [List.length] in Hnil. lia. }
  split; [apply span_firstn |]. split; [| reflexivity].
  rewrite !length_app. cbn [List.length]. rewrite length_app, length_firstn.
  cbn [List.length]. lia.
Qed.

Lemma env_match_sound (s : text) (len : nat) (cs : caps) :
  match_at env_pattern s = Some (len, cs) ->
  exists i name idiom post,
    s = idiom ++ post /\ env_idiom i name idiom post /\
    name <> [] /\ forallb name_char name = true /\
    len = List.length idiom /\ cs = [(i, name)].
Proof.
  rewrite env_match_at. unfold or_else.
  destruct (match_dotted s) as [[l c]|] eqn:E1.
  { intros H; inversion H; subst l c. apply match_dotted_sound in E1.
    destruct E1 as [name [post [Hs [Hne [Hn [Hp [Hl Hc]]]]]]].
    exists 1, name, (dotted name), post. unfold env_idiom. intuition. }
  destruct (match_quoted 2 _ _ s) as [[l c]|] eqn:E2.
  { intros H; inversion H; subst l c. apply match_quoted_sound in E2.
    destruct E2 as [q1 [name [q2 [post [Hs [Hq1 [Hq2 [Hne [Hn [Hl Hc]]]]]]]]]].
    exists 2, name, (subscript q1 name q2), post. unfold env_idiom.
    repeat split; try assumption. right; left. split; [reflexivity |].
    exists q1, q2. auto. }
  intros E3. apply match_quoted_sound in E3.
  destruct E3 as [q1 [name [q2 [post [Hs [Hq1 [Hq2 [Hne [Hn [Hl Hc]]]]]]]]]].
  exists 3, name, (getenv_call q1 name q2), post. unfold env_idiom.
  repeat split; try assumption. right; right. split; [reflexivity |].
  exists q1, q2. auto.
Qed.

(** ** No match of the environment pattern covers the start of an idiom *)

Lemma is_head_first (h1 h2 : char) :
  is_head h1 h2 = true -> (h1 = 112 \/ h1 = 111 \/ h1 = 103)%N.
Proof.
  unfold is_head. rewrite !orb_true_iff, !andb_true_iff, !N.eqb_eq. tauto.
Qed.

Lemma is_head_not_body (h1 h2 : char) :
  is_head h1 h2 = true -> body_char h1 = false.
Proof.
  intros H. apply is_head_first in H.
  destruct H as [-> | [-> | ->]]; reflexivity.
Qed.

Lemma in_of_app {X} (body post l tl : list X) (h : X) :
  body ++ post = l ++ h :: tl -> List.length l < List.length body ->
  In h body.
Proof.
  revert l; induction body as [|y body IH]; intros l E Hlen; [simpl in Hlen; lia |].
  destruct l as [|x l]; cbn [app] in E; inversion E; subst.
  - left; reflexivity.
  - right. apply (IH l); [assumption | simpl in Hlen; lia].
Qed.

Lemma no_overlap (lt body b rest post : text) :
  free_of_heads lt = true -> forallb body_char body = true ->
  b <> [] -> idiom_head rest = true ->
  b ++ rest = (lt ++ body) ++ post ->
  List.length (lt ++ body) <= List.length b.
Proof.
  intros Hfree Hbody Hb Hhead E.
  destruct rest as [|h1 [|h2 tl]]; try discriminate. cbn [idiom_head] in Hhead.
  pose proof (is_head_not_body _ _ Hhead) as Hnb.
  destruct (le_lt_dec (List.length (lt ++ body)) (List.length b)) as [|Hlt];
    [assumption | exfalso].
  rewrite length_app in Hlt. rewrite <- app_assoc in E.
  apply app_eq_app in E. destruct E as [l [[E1 E2] | [E1 E2]]].
  - (* the head lies in the body *)
    assert (In h1 body) as Hin.
    { apply (in_of_app body post l (h2 :: tl)); [exact E2 |].
      rewrite E1, length_app in Hlt. lia. }
    rewrite forallb_forall in Hbody. rewrite (Hbody h1 Hin) in Hnb. discriminate.
  - destruct l as [|c1 l].
    + (* the head is the first character of the body *)
      rewrite app_nil_r in E1. subst lt. cbn [app] in E2.
      destruct body as [|y body]; [simpl in Hlt; lia |]. inversion E2; subst.
      cbn [forallb] in Hbody. rewrite Hnb in Hbody. discriminate.
    + (* the head lies in the literal *)
      unfold free_of_heads in Hfree. rewrite forallb_forall in Hfree.
      assert (negb (head_at (skipn (List.length b) lt)) = true) as Hd.
      { apply Hfree, in_seq. rewrite E1, length_app. cbn [List.length].
        destruct b; [contradiction | cbn [List.length]; lia]. }
      rewrite E1, skipn_length_app in Hd.
      cbn [app] in E2. inversion E2; subst c1.
      destruct l as [|c2 l]; cbn [head_at] in Hd.
      * apply is_head_first in Hhead. apply negb_true_iff in Hd.
        rewrite !orb_false_iff, !N.eqb_neq in Hd. lia.
      * cbn [app] in H1. inversion H1; subst c2.
        rewrite Hhead in Hd. discriminate.
Qed.

Lemma forallb_name_body (name : text) :
  forallb name_char name = true -> forallb body_char name = true.
Proof.
  rewrite !forallb_forall. intros H x Hx. unfold body_char.
  rewrite (H x Hx). reflexivity.
Qed.

Lemma quoted_body (q1 q2 closing : char) (name : text) :
  quote_char q1 = true -> quote_char q2 = true ->
  forallb name_char name = true -> body_char closing = true ->
  forallb body_char (q1 :: name ++ [q2; closing]) = true.
Proof.
  intros H1 H2 Hn Hc. cbn [forallb]. rewrite forallb_app.
  rewrite (forallb_name_body _ Hn). cbn [forallb].
  unfold body_char at 1 2. rewrite H1, H2, Hc, !orb_true_r. reflexivity.
Qed.

Lemma env_no_overrun (b rest : text) (len : nat) (cs : caps) :
  b <> [] -> idiom_head rest = true ->
  match_at env_pattern (b ++ rest) = Some (len, cs) ->
  len <= List.length b.
Proof.
  intros Hb Hhead E. apply env_match_sound in E.
  destruct E as [i [name [idiom [post [Hs [Hi [Hne [Hname [-> _]]]]]]]]].
  destruct Hi as [[_ [-> _]] | [[_ [q1 [q2 [Hq1 [Hq2 ->]]]]] |
                                [_ [q1 [q2 [Hq1 [Hq2 ->]]]]]]].
  - apply (no_overlap (T "process.env.") name b rest post);
      [reflexivity | apply forallb_name_body, Hname | assumption ..].
  - apply (no_overlap (T "os.environ[") (q1 :: name ++ q2 :: T "]") b rest post);
      [reflexivity | apply quoted_body; auto | assumption ..].
  - apply (no_overlap (T "getenv(") (q1 :: name ++ q2 :: T ")") b rest post);
      [reflexivity | apply quoted_body; auto | assumption ..].
Qed.

Lemma env_idiom_head (i : nat) (name idiom post : text) :
  env_idiom i name idiom post -> idiom_head (idiom ++ post) = true.
Proof.
  intros [[_ [-> _]] | [[_ [q1 [q2 [_ [_ ->]]]]] | [_ [q1 [q2 [_ [_ ->]]]]]]];
    reflexivity.
Qed.

(** An idiom anywhere in the text is found by the scan. *)
Lemma env_scan_finds (i : nat) (name idiom pre post : text) :
  env_idiom i name idiom post ->
  name <> [] -> forallb name_char name = true ->
  In (idiom, [(i, name)]) (finditer env_pattern (pre ++ idiom ++ post)).
Proof.
  intros Hi Hne Hname. unfold finditer.
  destruct (scan_reach env_pattern pre (idiom ++ post)) with (k := 0)
    as [found ->]; [| lia |].
  { intros a b len cs _ Hb E.
    apply (env_no_overrun b (idiom ++ post) len cs);
      [exact Hb | eapply env_idiom_head, Hi | exact E]. }
  apply in_or_app. right.
  pose proof (env_match_complete i name idiom post Hi Hne Hname) as E.
  assert (0 < List.length idiom) as Hpos.
  { destruct Hi as [[_ [-> _]] | [[_ [q1 [q2 [_ [_ ->]]]]] |
                                  [_ [q1 [q2 [_ [_ ->]]]]]]]; cbn; lia. }
  rewrite (scan_hit _ _ _ _ Hpos E), firstn_length_app. left; reflexivity.
Qed.

Lemma env_idiom_index (i : nat) (name idiom post : text) :
  env_idiom i name idiom post -> i = 1 \/ i = 2 \/ i = 3.
Proof. intros [[-> _] | [[-> _] | [-> _]]]; auto. Qed.

Lemma file_env_vars_complete (i : nat) (name idiom pre post : text) :
  env_idiom i name idiom post ->
  name <> [] -> forallb name_char name = true ->
  In name (file_env_vars (pre ++ idiom ++ post)).
Proof.
  intros Hi Hne Hname. unfold file_env_vars, findall3.
  apply filter_In. split; [| destruct name; [contradiction | reflexivity]].
  apply in_concat.
  exists [group 1 [(i, name)]; group 2 [(i, name)]; group 3 [(i, name)]].
  split.
  - apply in_map_iff. exists (idiom, [(i, name)]).
    split; [reflexivity | apply env_scan_finds; assumption].
  - destruct (env_idiom_index _ _ _ _ Hi) as [-> | [-> | ->]]; cbn; auto.
Qed.

(** What is kept of a match is a captured name and nothing else. *)
Lemma file_env_vars_sound (content x : text) :
  In x (file_env_vars content) ->
  x <> [] /\ forallb name_char x = true.
Proof.
  unfold file_env_vars, findall3, finditer. intros H.
  apply filter_In in H. destruct H as [H Hx].
  split; [intros ->; discriminate |].
  apply in_concat in H. destruct H as [tuple [Ht Hin]].
  apply in_map_iff in Ht. destruct Ht as [[m cs] [<- Hm]].
  apply scan_sound in Hm. destruct Hm as [a [b [len [_ [E _]]]]].
  apply env_match_sound in E.
  destruct E as [i [name [idiom [post [_ [Hi [_ [Hname [_ ->]]]]]]]]].
  cbn [snd] in Hin.
  destruct (env_idiom_index _ _ _ _ Hi) as [-> | [-> | ->]]; cbn in Hin;
    repeat (destruct Hin as [<- | Hin]; try discriminate; try exact Hname);
    destruct Hin.
Qed.

Lemma url_scheme_chars (scheme : text) :
  scheme = T "http://" \/ scheme = T "https://" ->
  forallb url_char scheme = true /\ 0 < List.length scheme.
Proof. intros [-> | ->]; split; (reflexivity || (cbn; lia)). Qed.

Lemma scan_miss (r : regex) (c : char) (s : text) :
  match_at r (c :: s) = None -> scan r 0 (c :: s) = scan r 0 s.
Proof. intros E. cbn [scan]. rewrite E. reflexivity. Qed.

(** * Properties of the specification *)






(** On the sample machine: the report of the scan and status 0. *)
Example main_on_sample :
  main sample_world [T "auditor.py"; T "/home/dev/repo"] =
  {| printed := Some (audit repo_root sample_tree); exit_status := 0 |}.
Proof. vm_compute. reflexivity. Qed.


(** C9: in the report returned by [audit], [network_endpoints] and
    [env_vars] have no duplicate value and are sorted ascending in the
    lexicographic order of code points: every element is strictly below
    all the elements after it. *)
Theorem set_fields_sorted_without_duplicates (root : path) (tree : node) :
  NoDup (network_endpoints (audit root tree)) /\
  StronglySorted text_lt (network_endpoints (audit root tree)) /\
  NoDup (env_vars (audit root tree)) /\
  StronglySorted text_lt (env_vars (audit root tree)).
Proof.
  rewrite audit_fold. cbn [finalize network_endpoints env_vars].
  rewrite visit_network_endpoints, visit_env_vars.
  assert (forall xs, StronglySorted text_lt (sorted (add_all [] xs))) as H.
  { intros xs. apply sorted_StronglySorted, add_all_NoDup. constructor. }
  repeat split; try apply H; apply StronglySorted_NoDup, H.
Qed.

Lemma is_excluded_app (a b : path) :
  is_excluded (a ++ b) = is_excluded a || is_excluded b.
Proof.
  unfold is_excluded. rewrite !existsb_app.
  repeat match goal with |- context [existsb ?f ?l] =>
    destruct (existsb f l); simpl; try reflexivity end.
Qed.

Lemma fold_visit_id (root : path) (l : list (path * node)) (r : report) :
  (forall e, In e l -> is_excluded (root ++ fst e) = true) ->
  fold_left (visit root) l r = r.
Proof.
  revert r; induction l as [|e l IH]; intros r H; simpl; [reflexivity |].
  unfold visit at 2. rewrite (H e) by (left; reflexivity).
  apply IH. intros e' He'. apply H. right; exact He'.
Qed.

(** C10: when a component of the resolved root path starts with a dot or
    is [node_modules] or [venv], every enumerated entry is filtered out:
    [audit] returns [files_scanned = 0] and four empty finding fields,
    whatever the tree holds. *)
Theorem excluded_root_scans_nothing (root : path) (tree : node) :
  is_excluded root = true ->
  (forall e, In e (rglob root tree) -> is_excluded (fst e) = true) /\
  audit root tree = empty_report.
Proof.
  intros Hroot. split.
  - intros e He. rewrite rglob_root in He. apply in_map_iff in He.
    destruct He as [e0 [<- _]]. cbn [fst].
    rewrite is_excluded_app, Hroot. reflexivity.
  - rewrite audit_fold, fold_visit_id; [reflexivity |].
    intros e _. rewrite is_excluded_app, Hroot. reflexivity.
Qed.

Lemma excluded_root_scans_nothing_witness :
  (forall e, In e (rglob [T "/"; T "home"; T ".cache"; T "repo"] sample_tree) ->
             is_excluded (fst e) = true) /\
  audit [T "/"; T "home"; T ".cache"; T "repo"] sample_tree = empty_report.
Proof.
  apply (excluded_root_scans_nothing
           [T "/"; T "home"; T ".cache"; T "repo"] sample_tree).
  reflexivity.
Defined.

Lemma dangerous_fns_NoDup : NoDup dangerous_fns.
Proof.
  unfold dangerous_fns.
  repeat (constructor;
          [ simpl; intros H;
            repeat (destruct H as [H | H]; [discriminate H |]); exact H | ]).
  constructor.
Qed.

Lemma count_occ_filter (p : text -> bool) (l : list text) (x : text) :
  NoDup l -> In x l ->
  count_occ text_eq_dec (filter p l) x = if p x then 1 else 0.
Proof.
  induction 1 as [|y l Hy Hl IH]; intros Hin; [destruct Hin |].
  assert (~ In x l -> count_occ text_eq_dec (filter p l) x = 0) as Hout.
  { intros Hx. apply count_occ_not_In. intros H. apply filter_In in H.
    apply Hx, H. }
  destruct Hin as [-> | Hin]; simpl.
  - destruct (p x); simpl.
    + destruct (text_eq_dec x x); [| congruence]. rewrite Hout by exact Hy.
      reflexivity.
    + apply Hout, Hy.
  - assert (y <> x) as Hne by (intros ->; contradiction).
    destruct (p y); simpl.
    + destruct (text_eq_dec y x); [contradiction | apply IH, Hin].
    + apply IH, Hin.
Qed.

(** C4: the [dangerous_calls] of the report are, file after file in the
    order of the walk, what each scanned file (filter passed, text read)
    adds: the signatures of the fixed list that occur in its text, in the
    order of that list and not of the text, each under the file's relative
    path.  For a signature [fn] of the list and any text, [fn] is among
    the signatures added exactly once when it is a substring of the text,
    however often it occurs, and not at all when it is not. *)
Theorem dangerous_calls_once_per_signature (root : path) (tree : node)
    (content fn : text) :
  In fn dangerous_fns ->
  dangerous_calls (audit root tree) =
    flat_map (fun e =>
                match text_of root e with
                | Some content =>
                    map (fun fn => {| Call.file := str_path (fst e);
                                      Call.call := fn |})
                        (filter (contains content) dangerous_fns)
                | None => []
                end)
             (rglob [] tree) /\
  dangerous_fns =
    [T "eval("; T "exec("; T "spawn("; T "fork("; T "os.system(";
     T "subprocess.run("; T "setTimeout("; T "setInterval("] /\
  ((exists a b, content = a ++ fn ++ b) ->
   count_occ text_eq_dec (filter (contains content) dangerous_fns) fn = 1) /\
  (~ (exists a b, content = a ++ fn ++ b) ->
   count_occ text_eq_dec (filter (contains content) dangerous_fns) fn = 0).
Proof.
  intros Hin. split; [| split; [reflexivity |]].
  - rewrite audit_fold. cbn [finalize dangerous_calls].
    rewrite visit_dangerous_calls. reflexivity.
  - rewrite (count_occ_filter _ _ _ dangerous_fns_NoDup Hin).
    split; intros H.
    + apply contains_spec in H. rewrite H. reflexivity.
    + destruct (contains content fn) eqn:E; [| reflexivity].
      exfalso. apply H, contains_spec, E.
Qed.

Lemma dangerous_calls_once_per_signature_witness :
  dangerous_calls (audit repo_root sample_tree) =
    flat_map (fun e =>
                match text_of repo_root e with
                | Some content =>
                    map (fun fn => {| Call.file := str_path (fst e);
                                      Call.call := fn |})
                        (filter (contains content) dangerous_fns)
                | None => []
                end)
             (rglob [] sample_tree) /\
  dangerous_fns =
    [T "eval("; T "exec("; T "spawn("; T "fork("; T "os.system(";
     T "subprocess.run("; T "setTimeout("; T "setInterval("] /\
  ((exists a b, T "eval(userInput); eval(again)" = a ++ T "eval(" ++ b) ->
   count_occ text_eq_dec
     (filter (contains (T "eval(userInput); eval(again)")) dangerous_fns)
     (T "eval(") = 1) /\
  (~ (exists a b, T "eval(userInput); eval(again)" = a ++ T "eval(" ++ b) ->
   count_occ text_eq_dec
     (filter (contains (T "eval(userInput); eval(again)")) dangerous_fns)
     (T "eval(") = 0).
Proof.
  apply (dangerous_calls_once_per_signature repo_root sample_tree
           (T "eval(userInput); eval(again)") (T "eval(")).
  simpl. auto.
Defined.

Lemma is_excluded_cons (name : text) (rest : path) :
  is_excluded (name :: rest) = excluded_name name || is_excluded rest.
Proof.
  unfold is_excluded, excluded_name. cbn [existsb].
  destruct (startswith name (T ".")), (text_eqb (T "node_modules") name),
    (text_eqb (T "venv") name),
    (existsb (fun part => startswith part (T ".")) rest),
    (existsb (text_eqb (T "node_modules")) rest),
    (existsb (text_eqb (T "venv")) rest); reflexivity.
Qed.

Lemma is_excluded_spec (parts : path) :
  is_excluded parts = true <->
  exists part, In part parts /\
    ((exists rest, part = T "." ++ rest) \/
     part = T "node_modules" \/ part = T "venv").
Proof.
  unfold is_excluded. rewrite !orb_true_iff, !existsb_exists. split.
  - intros [[[x [Hin H]] | [x [Hin H]]] | [x [Hin H]]]; exists x; split; auto.
    + left. apply startswith_spec, H.
    + right; left. symmetry. apply text_eqb_eq, H.
    + right; right. symmetry. apply text_eqb_eq, H.
  - intros [x [Hin [H | [H | H]]]].
    + left; left. exists x. split; [exact Hin | apply startswith_spec, H].
    + left; right. exists x. split; [exact Hin |]. subst. apply text_eqb_refl.
    + right. exists x. split; [exact Hin |]. subst. apply text_eqb_refl.
Qed.

Lemma filter_map_comm {X Y} (f : X -> Y) (p : Y -> bool) (l : list X) :
  filter p (map f l) = map f (filter (fun x => p (f x)) l).
Proof.
  induction l as [|x l IH]; simpl; [reflexivity |].
  destruct (p (f x)); simpl; rewrite IH; reflexivity.
Qed.

Lemma filter_none {X} (p : X -> bool) (l : list X) :
  (forall x, In x l -> p x = false) -> filter p l = [].
Proof.
  induction l as [|x l IH]; intros H; simpl; [reflexivity |].
  rewrite (H x) by (left; reflexivity).
  apply IH. intros y Hy. apply H. right; exact Hy.
Qed.

(** Enumerating the pruned tree gives the entries of the full
    enumeration whose relative path has no excluded component. *)
Lemma rglob_prune (tree : node) :
  rglob [] (prune tree) =
  map (fun e : path * node => (fst e, prune (snd e)))
      (filter (fun e : path * node => negb (is_excluded (fst e)))
              (rglob [] tree)).
Proof.
  induction tree as [c| |es IH] using node_induction; try reflexivity.
  cbn [prune rglob app]. rewrite filter_app, map_app. f_equal.
  - clear IH. induction es as [|e es IHes]; [reflexivity |].
    cbn [flat_map map filter fst snd app].
    rewrite is_excluded_cons. cbn [is_excluded existsb]. rewrite orb_false_r.
    destruct (excluded_name (fst e)); cbn [negb app map]; rewrite IHes;
      reflexivity.
  - induction es as [|e es IHes]; [reflexivity |].
    inversion IH as [|? ? He Hes]; subst.
    cbn [flat_map]. rewrite flat_map_app, filter_app, map_app, (IHes Hes).
    f_equal. cbn [app].
    rewrite (rglob_root [fst e]), filter_map_comm. cbn [fst snd].
    destruct (excluded_name (fst e)) eqn:E.
    + rewrite filter_none; [reflexivity |].
      intros x _. cbn [app]. rewrite is_excluded_cons, E. reflexivity.
    + cbn [flat_map fst snd]. rewrite app_nil_r, (rglob_root [fst e]), He.
      rewrite !map_map. cbn [fst snd app].
      f_equal. apply filter_ext. intros x. cbn [app].
      rewrite is_excluded_cons, E. reflexivity.
Qed.

Lemma fold_visit_prune (root : path) (l : list (path * node)) (r : report) :
  fold_left (visit root)
    (map (fun e : path * node => (fst e, prune (snd e))) l) r =
  fold_left (visit root) l r.
Proof.
  revert r; induction l as [|e l IH]; intros r; simpl; [reflexivity |].
  rewrite IH. f_equal. unfold visit. cbn [fst snd].
  destruct (snd e); reflexivity.
Qed.

Lemma fold_visit_filter (root : path) (l : list (path * node)) (r : report) :
  fold_left (visit root)
    (filter (fun e : path * node => negb (is_excluded (fst e))) l) r =
  fold_left (visit root) l r.
Proof.
  revert r; induction l as [|e l IH]; intros r; simpl; [reflexivity |].
  destruct (is_excluded (fst e)) eqn:E; cbn [negb].
  - rewrite IH. f_equal. unfold visit.
    rewrite is_excluded_app, E, orb_true_r. reflexivity.
  - simpl. apply IH.
Qed.

(** C7: the filter drops a path exactly when one of its components starts
    with a dot or is, as a whole, [node_modules] or [venv]; a component
    such as [my.venv] does not trigger it; and deleting from the tree every
    entry with such a name, at any depth and with all it holds, leaves the
    whole report -- count and findings -- unchanged. *)
Theorem path_filter_by_component (root : path) (tree : node) :
  (forall parts,
     is_excluded parts = true <->
     exists part, In part parts /\
       ((exists rest, part = T "." ++ rest) \/
        part = T "node_modules" \/ part = T "venv")) /\
  is_excluded [T "/"; T "repo"; T "my.venv"; T "run.py"] = false /\
  audit root (prune tree) = audit root tree.
Proof.
  split; [exact is_excluded_spec | split; [reflexivity |]].
  rewrite !audit_fold, rglob_prune, fold_visit_prune, fold_visit_filter.
  reflexivity.
Qed.

Lemma rglob_valid (tree : node) (e : path * node) :
  valid_tree tree = true -> In e (rglob [] tree) ->
  Forall (fun name => valid_name name = true) (fst e).
Proof.
  revert e. induction tree as [c| |es IH] using node_induction; intros e Hv;
    try (intros []).
  cbn [valid_tree] in Hv. rewrite forallb_forall in Hv.
  rewrite Forall_forall in IH.
  cbn [rglob app]. rewrite in_app_iff, in_map_iff, in_flat_map.
  intros [[e0 [<- He0]] | [e0 [He0 Hin]]].
  - apply Hv in He0. apply andb_true_iff in He0. cbn [fst].
    constructor; [apply He0 | constructor].
  - rewrite (rglob_root [fst e0]) in Hin. apply in_map_iff in Hin.
    destruct Hin as [e1 [<- He1]]. cbn [fst app].
    pose proof (Hv e0 He0) as Hv0. apply andb_true_iff in Hv0.
    constructor; [apply Hv0 |]. apply (IH e0 He0 e1); [apply Hv0 | exact He1].
Qed.

Lemma str_path_not_absolute (p : path) :
  p <> [] -> Forall (fun name => valid_name name = true) p ->
  startswith (str_path p) (T "/") = false.
Proof.
  destruct p as [|x p]; [congruence |]. intros _ H.
  inversion H as [|? ? Hx _]; subst.
  unfold valid_name in Hx. apply andb_true_iff in Hx. destruct Hx as [Hne Hsl].
  destruct x as [|c x]; [discriminate |].
  cbn [existsb] in Hsl. rewrite negb_true_iff, orb_false_iff in Hsl.
  destruct Hsl as [Hc _].
  assert (char_eqb c 47%N = false) as Hc'.
  { unfold char_eqb. rewrite N.eqb_sym. exact Hc. }
  unfold str_path. destruct p; cbn; unfold char_eqb in *; rewrite Hc';
    reflexivity.
Qed.

(** C8: in the report of any tree of real file names, the [file] of every
    [dangerous_calls] and [suspicious_blobs] entry is the path of an
    enumerated entry taken relative to the root -- its components below
    the root joined by slashes, with nothing of the root in it -- and it
    does not start with a slash, whatever the root is. *)
Theorem finding_paths_are_relative (root : path) (tree : node) :
  valid_tree tree = true ->
  Forall (fun c => exists e, In e (rglob [] tree) /\
                     Call.file c = str_path (fst e) /\
                     startswith (Call.file c) (T "/") = false)
         (dangerous_calls (audit root tree)) /\
  Forall (fun b => exists e, In e (rglob [] tree) /\
                     Blob.file b = str_path (fst e) /\
                     startswith (Blob.file b) (T "/") = false)
         (suspicious_blobs (audit root tree)).
Proof.
  intros Hv. rewrite audit_fold. cbn [finalize dangerous_calls suspicious_blobs].
  rewrite visit_dangerous_calls, visit_suspicious_blobs. cbn [empty_report
    dangerous_calls suspicious_blobs app].
  assert (forall e, In e (rglob [] tree) ->
            startswith (str_path (fst e)) (T "/") = false) as Hrel.
  { intros e He. apply str_path_not_absolute.
    - apply (rglob_nonempty tree), He.
    - apply (rglob_valid tree); assumption. }
  split; rewrite Forall_forall; intros x Hx; apply in_flat_map in Hx;
    destruct Hx as [e [He Hx]]; exists e; unfold per_file in Hx;
    destruct (text_of root e) as [content|]; try (destruct Hx);
    apply in_map_iff in Hx; destruct Hx as [y [<- _]];
    cbn [Call.file Blob.file]; repeat split; auto.
Qed.

Lemma finding_paths_are_relative_witness :
  Forall (fun c => exists e, In e (rglob [] sample_tree) /\
                     Call.file c = str_path (fst e) /\
                     startswith (Call.file c) (T "/") = false)
         (dangerous_calls (audit repo_root sample_tree)) /\
  Forall (fun b => exists e, In e (rglob [] sample_tree) /\
                     Blob.file b = str_path (fst e) /\
                     startswith (Blob.file b) (T "/") = false)
         (suspicious_blobs (audit repo_root sample_tree)).
Proof.
  apply (finding_paths_are_relative repo_root sample_tree). reflexivity.
Defined.

(** C5: the [suspicious_blobs] of the report are, file after file, one
    entry per match of the blob pattern in the text of each scanned file,
    holding the file's relative path and the length of the match; and the
    matches are the maximal runs of [[A-Za-z0-9+/]] of length 128 or more:
    a maximal run standing between [pre] and [post] gives exactly one match,
    the run itself, when it has at least 128 characters, and none when it
    has 127 or fewer, next to the matches of [pre] and of [post]. *)
Theorem blob_per_maximal_run (root : path) (tree : node)
    (pre run post : text) :
  ends_outside blob_char pre = true ->
  forallb blob_char run = true ->
  starts_outside blob_char post = true ->
  suspicious_blobs (audit root tree) =
    flat_map (fun e =>
                match text_of root e with
                | Some content =>
                    map (fun blob => {| Blob.file := str_path (fst e);
                                        Blob.length := List.length blob |})
                        (findall0 blob_pattern content)
                | None => []
                end)
             (rglob [] tree) /\
  findall0 blob_pattern (pre ++ run ++ post) =
    findall0 blob_pattern pre ++
    (if Nat.leb 128 (List.length run) then [run] else []) ++
    findall0 blob_pattern post.
Proof.
  intros Hpre Hrun Hpost. split.
  - rewrite audit_fold. cbn [finalize suspicious_blobs].
    rewrite visit_suspicious_blobs. reflexivity.
  - unfold findall0, finditer, blob_pattern.
    rewrite rep_scan_app by exact Hpre.
    rewrite rep_scan_run by (lia || assumption).
    rewrite !map_app. destruct (Nat.leb 128 (List.length run)); reflexivity.
Qed.

Lemma blob_per_maximal_run_witness :
  suspicious_blobs (audit repo_root blob_tree) =
    flat_map (fun e =>
                match text_of repo_root e with
                | Some content =>
                    map (fun blob => {| Blob.file := str_path (fst e);
                                        Blob.length := List.length blob |})
                        (findall0 blob_pattern content)
                | None => []
                end)
             (rglob [] blob_tree) /\
  findall0 blob_pattern (T "key = '" ++ repeat 65%N 200 ++ T "';") =
    findall0 blob_pattern (T "key = '") ++
    (if Nat.leb 128 (List.length (repeat 65%N 200))
     then [repeat 65%N 200] else []) ++
    findall0 blob_pattern (T "';").
Proof.
  apply (blob_per_maximal_run repo_root blob_tree
           (T "key = '") (repeat 65%N 200) (T "';")); reflexivity.
Defined.

(** The boundary of the blob detector: runs of 127, 128, 129 and 200
    characters. *)
Example blob_boundary :
  suspicious_blobs (audit repo_root blob_tree) =
    [ {| Blob.file := T "keys/k128.txt"; Blob.length := 128 |};
      {| Blob.file := T "keys/k129.txt"; Blob.length := 129 |};
      {| Blob.file := T "keys/k200.txt"; Blob.length := 200 |} ].
Proof. vm_compute. reflexivity. Qed.

Lemma audit_network_endpoints_In (root : path) (tree : node) (x : text) :
  In x (network_endpoints (audit root tree)) <->
  exists e content, In e (rglob [] tree) /\ text_of root e = Some content /\
                    In x (file_endpoints content).
Proof.
  rewrite audit_fold. cbn [finalize network_endpoints].
  rewrite sorted_In, visit_network_endpoints, add_all_In, in_flat_map.
  cbn [empty_report network_endpoints In]. unfold per_file. split.
  - intros [[] | [e [He Hx]]]. destruct (text_of root e) as [content|] eqn:E;
      [| destruct Hx]. exists e, content. auto.
  - intros [e [content [He [E Hx]]]]. right. exists e. rewrite E. auto.
Qed.

Lemma audit_env_vars_In (root : path) (tree : node) (x : text) :
  In x (env_vars (audit root tree)) <->
  exists e content, In e (rglob [] tree) /\ text_of root e = Some content /\
                    In x (file_env_vars content).
Proof.
  rewrite audit_fold. cbn [finalize env_vars].
  rewrite sorted_In, visit_env_vars, add_all_In, in_flat_map.
  cbn [empty_report env_vars In]. unfold per_file. split.
  - intros [[] | [e [He Hx]]]. destruct (text_of root e) as [content|] eqn:E;
      [| destruct Hx]. exists e, content. auto.
  - intros [e [content [He [E Hx]]]]. right. exists e. rewrite E. auto.
Qed.

(** C3, as the code has it: when the text of a scanned file (entry [e],
    filter passed, text read) holds, anywhere, [process.env.NAME] with no
    further character of [[A-Z0-9_]] right after it, or [os.environ[qNAMEq]]
    or [getenv(qNAMEq)] with a single or double quote for each [q], where
    NAME is one or more characters of [[A-Z0-9_]], then NAME is an element
    of [env_vars].  The dotted style is that of the literal namespace
    [process].  Every element of [env_vars] is such a name and nothing of
    the idiom around it. *)
Theorem env_var_idioms (root : path) (tree : node) (e : path * node)
    (content pre idiom post name : text) (i : nat) :
  In e (rglob [] tree) -> text_of root e = Some content ->
  content = pre ++ idiom ++ post ->
  env_idiom i name idiom post ->
  name <> [] -> forallb name_char name = true ->
  In name (env_vars (audit root tree)) /\
  (forall x, In x (env_vars (audit root tree)) ->
             x <> [] /\ forallb name_char x = true).
Proof.
  intros He Ht -> Hi Hne Hname. split.
  - apply audit_env_vars_In. exists e, (pre ++ idiom ++ post).
    split; [exact He | split; [exact Ht |]].
    apply (file_env_vars_complete i); assumption.
  - intros x Hx. apply audit_env_vars_In in Hx.
    destruct Hx as [e' [content' [_ [_ Hx]]]].
    apply (file_env_vars_sound content'), Hx.
Qed.

Lemma env_var_idioms_witness :
  In (T "API_KEY") (env_vars (audit repo_root sample_tree)) /\
  (forall x, In x (env_vars (audit repo_root sample_tree)) ->
             x <> [] /\ forallb name_char x = true).
Proof.
  apply (env_var_idioms repo_root sample_tree
           ([T "app.py"],
            File (Some (T "eval(a); os.system('ls'); eval(b) os.environ['API_KEY'] https://example.com/path?x=1 and more")))
           (T "eval(a); os.system('ls'); eval(b) os.environ['API_KEY'] https://example.com/path?x=1 and more")
           (T "eval(a); os.system('ls'); eval(b) ")
           (subscript 39%N (T "API_KEY") 39%N)
           (T " https://example.com/path?x=1 and more")
           (T "API_KEY") 2).
  - simpl. auto.
  - reflexivity.
  - reflexivity.
  - right; left. split; [reflexivity |].
    exists 39%N, 39%N. repeat split; reflexivity.
  - discriminate.
  - reflexivity.
Defined.

(** C3 as stated fails twice.  The dotted style is matched after
    [process] only: a file reading [import.meta.env.API_KEY] holds
    [meta.env.API_KEY], and yet [env_vars] is empty.  And the dotted name
    is taken as far as it goes: a file reading [process.env.API_KEY2] holds
    the text [process.env.API_KEY], and yet [API_KEY] is not in
    [env_vars]. *)
Lemma dotted_style_needs_process :
  contains (T "const key = import.meta.env.API_KEY;") (T "meta.env.API_KEY") = true /\
  env_vars (audit repo_root vite_tree) = [] /\
  contains (T "const key = process.env.API_KEY2;") (T "process.env.API_KEY") = true /\
  env_vars (audit repo_root numbered_tree) = [T "API_KEY2"].
Proof. repeat split; reflexivity. Qed.

Lemma startswith_through (l b rest : text) (h : char) :
  ~ In h l -> startswith (b ++ h :: rest) l = startswith b l.
Proof.
  revert b; induction l as [|c l IH]; intros b Hh; [reflexivity |].
  destruct b as [|x b]; cbn [app startswith].
  - destruct (char_eqb h c) eqn:E; [| reflexivity].
    apply char_eqb_eq in E. exfalso. apply Hh. left. auto.
  - rewrite IH; [reflexivity |]. intros H. apply Hh. right; exact H.
Qed.

(** A literal that holds [h] at its first place only cannot begin in [b]
    and go on into a text that begins with [h]. *)
Lemma startswith_cross (l b rest : text) (h : char) :
  b <> [] -> ~ In h (tl l) ->
  startswith (b ++ h :: rest) l = startswith b l.
Proof.
  intros Hb Hh. destruct l as [|c l]; [reflexivity |].
  destruct b as [|x b]; [contradiction |].
  cbn [app startswith]. rewrite startswith_through by exact Hh. reflexivity.
Qed.

Lemma url_scheme_cross (b rest : text) :
  b <> [] -> url_scheme (b ++ 104%N :: rest) = url_scheme b.
Proof.
  intros Hb. unfold url_scheme.
  rewrite !startswith_cross; try assumption; try reflexivity;
    intros H; vm_compute in H;
    repeat (destruct H as [H | H]; [discriminate H |]); exact H.
Qed.

Lemma span_not_all (p : char -> bool) (t rest : text) :
  forallb p t = false -> span p (t ++ rest) = span p t.
Proof.
  induction t as [|x t IH]; [discriminate |].
  cbn [forallb app span]. destruct (p x); [| reflexivity].
  cbn [andb]. intros H. rewrite (IH H). reflexivity.
Qed.

(** An attempt that begins in [b], which is not an open URL, goes the
    same way whether or not another address follows [b]. *)
Lemma url_local_open (b rest : text) :
  b <> [] -> open_url b = false ->
  match_at url_pattern (b ++ 104%N :: rest) = match_at url_pattern b.
Proof.
  intros Hb Hopen. rewrite !url_match_at, url_scheme_cross by exact Hb.
  unfold open_url in Hopen.
  destruct (url_scheme b) as [n|] eqn:E; [| reflexivity].
  apply url_scheme_inv in E. destruct E as [scheme [_ [-> E]]].
  rewrite skipn_app.
  replace (List.length scheme - List.length b) with 0.
  2:{ rewrite E at 1. rewrite length_app. lia. }
  cbn [skipn]. rewrite (span_not_all _ _ _ Hopen). reflexivity.
Qed.

Lemma ends_in_url_suffix (a b : text) :
  ends_in_url (a ++ b) = false -> open_url b = false.
Proof.
  induction a as [|x a IH]; cbn [app].
  - destruct b; cbn [ends_in_url]; intros H; apply orb_false_iff in H; apply H.
  - cbn [ends_in_url]. intros H. apply orb_false_iff in H. apply IH, H.
Qed.

Lemma url_scan_app_open (pre rest : text) :
  ends_in_url pre = false ->
  scan url_pattern 0 (pre ++ 104%N :: rest) =
  scan url_pattern 0 pre ++ scan url_pattern 0 (104%N :: rest).
Proof.
  intros Hpre. apply scan_app; [| lia].
  intros a b E Hb. apply url_local_open; [exact Hb |].
  apply (ends_in_url_suffix a). rewrite <- E. exact Hpre.
Qed.

Lemma url_scheme_head (scheme : text) :
  scheme = T "http://" \/ scheme = T "https://" ->
  exists t, scheme = 104%N :: t.
Proof. intros [-> | ->]; eexists; reflexivity. Qed.

(** C6, as the code has it: in the text of a scanned file, [http://] or
    [https://] followed by a maximal run of one or more characters other
    than white space and the delimiters is one match, next to the matches
    of what precedes and of what follows, and an element of
    [network_endpoints], wherever it stands in the text, unless it
    continues an earlier address: unless what precedes it ends with
    [http://] or [https://] followed by URL characters only.  Every
    element of [network_endpoints] is a scheme followed by such a run,
    taken from a scanned text up to the end of the text or to the first
    character outside the class. *)
Theorem url_detector (root : path) (tree : node) (e : path * node)
    (content pre scheme run post : text) :
  In e (rglob [] tree) -> text_of root e = Some content ->
  content = pre ++ scheme ++ run ++ post ->
  scheme = T "http://" \/ scheme = T "https://" ->
  ends_in_url pre = false ->
  run <> [] -> forallb url_char run = true ->
  starts_outside url_char post = true ->
  findall0 url_pattern content =
    findall0 url_pattern pre ++ [scheme ++ run] ++ findall0 url_pattern post /\
  In (scheme ++ run) (network_endpoints (audit root tree)) /\
  (forall x, In x (network_endpoints (audit root tree)) ->
     exists e' content' before scheme' run' after,
       In e' (rglob [] tree) /\ text_of root e' = Some content' /\
       content' = before ++ scheme' ++ run' ++ after /\
       x = scheme' ++ run' /\
       (scheme' = T "http://" \/ scheme' = T "https://") /\
       run' <> [] /\ forallb url_char run' = true /\
       starts_outside url_char after = true).
Proof.
  intros He Ht -> Hs Hpre Hne Hrun Hpost.
  assert (findall0 url_pattern (pre ++ scheme ++ run ++ post) =
          findall0 url_pattern pre ++ [scheme ++ run] ++
          findall0 url_pattern post) as Hall.
  { unfold findall0, finditer.
    destruct (url_scheme_head _ Hs) as [t Et].
    assert (scheme ++ run ++ post = 104%N :: t ++ run ++ post) as Ehead
      by (rewrite Et; reflexivity).
    rewrite Ehead, url_scan_app_open by exact Hpre.
    rewrite <- Ehead, url_scan_head by assumption.
    rewrite map_app. reflexivity. }
  split; [exact Hall | split].
  - apply audit_network_endpoints_In. exists e, (pre ++ scheme ++ run ++ post).
    split; [exact He | split; [exact Ht |]].
    unfold file_endpoints. rewrite Hall.
    apply in_or_app. right. left. reflexivity.
  - intros x Hx. apply audit_network_endpoints_In in Hx.
    destruct Hx as [e' [content' [He' [Ht' Hx]]]].
    unfold file_endpoints, findall0, finditer in Hx.
    apply in_map_iff in Hx. destruct Hx as [[m cs] [<- Hm]].
    apply scan_sound in Hm. destruct Hm as [a [b [len [-> [E ->]]]]].
    apply url_match_sound in E.
    destruct E as [scheme' [run' [after [-> [Hs' [Hne' [Hrun' [Ha Hf]]]]]]]].
    exists e', (a ++ scheme' ++ run' ++ after), a, scheme', run', after.
    cbn [fst]. rewrite Hf. repeat split; assumption.
Qed.

Lemma url_detector_witness :
  findall0 url_pattern (T "url=https://example.com/path?x=1 and more") =
    findall0 url_pattern (T "url=") ++
    [T "https://" ++ T "example.com/path?x=1"] ++
    findall0 url_pattern (T " and more") /\
  In (T "https://" ++ T "example.com/path?x=1")
     (network_endpoints (audit repo_root config_tree)) /\
  (forall x, In x (network_endpoints (audit repo_root config_tree)) ->
     exists e' content' before scheme' run' after,
       In e' (rglob [] config_tree) /\
       text_of repo_root e' = Some content' /\
       content' = before ++ scheme' ++ run' ++ after /\
       x = scheme' ++ run' /\
       (scheme' = T "http://" \/ scheme' = T "https://") /\
       run' <> [] /\ forallb url_char run' = true /\
       starts_outside url_char after = true).
Proof.
  apply (url_detector repo_root config_tree
           ([T "settings.ini"],
            File (Some (T "url=https://example.com/path?x=1 and more")))
           (T "url=https://example.com/path?x=1 and more")
           (T "url=") (T "https://") (T "example.com/path?x=1")
           (T " and more")).
  - simpl. auto.
  - reflexivity.
  - reflexivity.
  - right. reflexivity.
  - reflexivity.
  - discriminate.
  - reflexivity.
  - reflexivity.
Defined.

(** C6 as stated fails: a file can hold the text
    [https://example.com/path?x=1 and more] without yielding the endpoint
    [https://example.com/path?x=1].  Quoted through a web archive, the
    address is the tail of a longer run of URL characters, and the one
    match is the archive address. *)
Lemma url_absorbed_by_earlier_match :
  contains
    (T "mirror: http://web.archive.org/web/https://example.com/path?x=1 and more")
    (T "https://example.com/path?x=1 and more") = true /\
  network_endpoints (audit repo_root archive_tree) =
    [T "http://web.archive.org/web/https://example.com/path?x=1"] /\
  ~ In (T "https://example.com/path?x=1")
       (network_endpoints (audit repo_root archive_tree)).
Proof.
  assert (network_endpoints (audit repo_root archive_tree) =
          [T "http://web.archive.org/web/https://example.com/path?x=1"]) as E
    by (vm_compute; reflexivity).
  split; [vm_compute; reflexivity | split; [exact E |]].
  rewrite E. intros [H | []]. vm_compute in H. discriminate H.
Qed.

Lemma ends_in_url_spec (pre : text) :
  ends_in_url pre = true <-> exists a b, pre = a ++ b /\ open_url b = true.
Proof.
  split.
  - induction pre as [|x pre IH]; cbn [ends_in_url]; intros H;
      apply orb_true_iff in H; destruct H as [H | H];
      try discriminate.
    + exists [], (x :: pre). auto.
    + destruct (IH H) as [a [b [-> Hb]]]. exists (x :: a), b. auto.
  - intros [a [b [-> Hb]]]. induction a as [|x a IH]; cbn [app].
    + destruct b; cbn [ends_in_url]; rewrite Hb; reflexivity.
    + cbn [ends_in_url]. rewrite IH. apply orb_true_r.
Qed.

Lemma open_url_inv (b : text) :
  open_url b = true ->
  exists scheme t, b = scheme ++ t /\
    (scheme = T "http://" \/ scheme = T "https://") /\
    forallb url_char t = true.
Proof.
  unfold open_url. destruct (url_scheme b) as [n|] eqn:E; [| discriminate].
  apply url_scheme_inv in E. destruct E as [scheme [Hs [-> E]]].
  intros H. exists scheme, (skipn (List.length scheme) b). auto.
Qed.

(** An open URL swallows the address that follows it. *)
Lemma open_match (b scheme run post : text) :
  scheme = T "http://" \/ scheme = T "https://" ->
  run <> [] -> forallb url_char run = true ->
  starts_outside url_char post = true ->
  open_url b = true ->
  match_at url_pattern (b ++ scheme ++ run ++ post) =
  Some (List.length (b ++ scheme ++ run), []).
Proof.
  intros Hs Hne Hrun Hpost Hb.
  destruct (open_url_inv b Hb) as [scheme' [t [-> [Hs' Ht]]]].
  assert (forallb url_char (t ++ scheme ++ run) = true) as Hall.
  { rewrite !forallb_app, Ht, Hrun.
    destruct (url_scheme_chars _ Hs) as [-> _]. reflexivity. }
  replace ((scheme' ++ t) ++ scheme ++ run ++ post)
    with (scheme' ++ (t ++ scheme ++ run) ++ post)
    by (rewrite <- !app_assoc; reflexivity).
  rewrite url_match_at, (url_scheme_app _ _ Hs'), skipn_length_app.
  rewrite (span_all _ _ _ Hall Hpost).
  replace (Nat.leb 1 (List.length (t ++ scheme ++ run))) with true.
  2:{ symmetry. apply Nat.leb_le. rewrite !length_app.
      destruct run; [contradiction | cbn [List.length]; lia]. }
  do 2 f_equal. rewrite <- !app_assoc, !length_app. lia.
Qed.

Lemma skipn_inside {X} (p : X -> bool) (w : list X) (k : nat) :
  forallb p w = true -> k < List.length w ->
  exists z t, skipn k w = z :: t /\ p z = true.
Proof.
  revert k; induction w as [|x w IH]; intros k Hw Hk; [simpl in Hk; lia |].
  cbn [forallb] in Hw. apply andb_true_iff in Hw. destruct Hw as [Hx Hw].
  destruct k as [|k]; [exists x, w; auto |].
  cbn [skipn]. apply IH; [exact Hw | simpl in Hk; lia].
Qed.

(** A match that ends inside [pre] ends before the open URL in which
    [pre] ends. *)
Lemma skip_keeps_open (pre scheme run post : text) (len : nat) (cs : caps) :
  scheme = T "http://" \/ scheme = T "https://" ->
  run <> [] -> forallb url_char run = true ->
  ends_in_url pre = true ->
  match_at url_pattern (pre ++ scheme ++ run ++ post) = Some (len, cs) ->
  len <= List.length pre ->
  ends_in_url (skipn len pre) = true.
Proof.
  intros Hs Hne Hrun Hpre E Hlen.
  apply ends_in_url_spec in Hpre. destruct Hpre as [a [b [-> Hb]]].
  destruct (le_lt_dec len (List.length a)) as [Ha | Ha].
  - apply ends_in_url_spec. exists (skipn len a), b. split; [| exact Hb].
    rewrite skipn_app. replace (len - List.length a) with 0 by lia.
    reflexivity.
  - exfalso.
    pose proof (url_match_sound _ _ _ E) as
      [scheme' [run' [after [Hsplit [_ [_ [_ [Hafter Hfirst]]]]]]]].
    assert (after = skipn len ((a ++ b) ++ scheme ++ run ++ post)) as Eafter.
    { rewrite <- (firstn_skipn len ((a ++ b) ++ scheme ++ run ++ post)) in Hsplit.
      rewrite Hfirst, <- app_assoc in Hsplit.
      apply app_inv_head in Hsplit. apply app_inv_head in Hsplit.
      symmetry. exact Hsplit. }
    destruct (open_url_inv b Hb) as [s1 [t1 [Eb [Hs1 Ht1]]]].
    assert (forallb url_char (b ++ scheme ++ run) = true) as Hall.
    { rewrite Eb, !forallb_app, Ht1, Hrun.
      destruct (url_scheme_chars _ Hs1) as [-> _].
      destruct (url_scheme_chars _ Hs) as [-> _]. reflexivity. }
    rewrite length_app in Hlen.
    destruct (skipn_inside url_char (b ++ scheme ++ run) (len - List.length a)
                Hall) as [z [t [Ez Hz]]].
    { rewrite !length_app. destruct run; [contradiction |].
      cbn [List.length]. lia. }
    replace ((a ++ b) ++ scheme ++ run ++ post)
      with (a ++ (b ++ scheme ++ run) ++ post) in Eafter
      by (rewrite <- !app_assoc; reflexivity).
    rewrite skipn_app, (skipn_all2 a) in Eafter by lia.
    cbn [app] in Eafter. rewrite skipn_app, Ez in Eafter.
    cbn [app] in Eafter. rewrite Eafter in Hafter.
    cbn [starts_outside] in Hafter. rewrite Hz in Hafter. discriminate.
Qed.

(** The condition on what precedes the address is the weakest there
    is.  When the text before the address does end with a
    scheme followed by URL characters only, the match that covers the
    address began before it: the endpoint found there is the address with
    a non-empty end of [pre] in front. *)
Lemma url_continues_earlier_match (scheme run post : text) :
  scheme = T "http://" \/ scheme = T "https://" ->
  run <> [] -> forallb url_char run = true ->
  starts_outside url_char post = true ->
  forall n pre, List.length pre <= n -> ends_in_url pre = true ->
  exists a before,
    pre = a ++ before /\ before <> [] /\
    In (before ++ scheme ++ run)
       (findall0 url_pattern (pre ++ scheme ++ run ++ post)).
Proof.
  intros Hs Hne Hrun Hpost. unfold findall0, finditer.
  induction n as [|n IH]; intros pre Hn Hpre.
  { destruct pre; [discriminate Hpre | simpl in Hn; lia]. }
  destruct pre as [|c pre]; [discriminate Hpre |].
  cbn [List.length] in Hn.
  destruct (open_url (c :: pre)) eqn:Hopen.
  - (* the whole of [pre] is an open URL *)
    pose proof (open_match _ _ _ _ Hs Hne Hrun Hpost Hopen) as E.
    exists [], (c :: pre). split; [reflexivity | split; [discriminate |]].
    assert (0 < List.length ((c :: pre) ++ scheme ++ run)) as Hpos
      by (cbn [app List.length]; lia).
    rewrite (scan_hit _ _ _ _ Hpos E).
    replace ((c :: pre) ++ scheme ++ run ++ post)
      with (((c :: pre) ++ scheme ++ run) ++ post)
      by (rewrite <- !app_assoc; reflexivity).
    rewrite firstn_length_app. left. reflexivity.
  - assert (ends_in_url pre = true) as Hpre'.
    { cbn [ends_in_url] in Hpre. rewrite Hopen in Hpre. exact Hpre. }
    destruct (match_at url_pattern ((c :: pre) ++ scheme ++ run ++ post))
      as [[len cs]|] eqn:E.
    + pose proof (match_at_le _ _ _ _ E) as Hle.
      pose proof (url_match_sound _ _ _ E) as
        [scheme' [run' [after [_ [Hs' [_ [_ [_ Hfirst]]]]]]]].
      assert (0 < len) as Hpos.
      { apply (f_equal (@List.length _)) in Hfirst.
        rewrite length_firstn, (length_app scheme' run') in Hfirst.
        destruct (url_scheme_chars _ Hs'). lia. }
      destruct (le_lt_dec len (List.length (c :: pre))) as [Hin | Hout].
      * pose proof (skip_keeps_open _ _ _ _ _ _ Hs Hne Hrun Hpre E Hin) as Hk.
        destruct (IH (skipn len (c :: pre))) as [a [before [Ea [Hb H]]]];
          [rewrite length_skipn; cbn [List.length] in *; lia | exact Hk |].
        exists (firstn len (c :: pre) ++ a), before.
        split; [rewrite <- app_assoc, <- Ea, firstn_skipn; reflexivity |].
        split; [exact Hb |].
        rewrite (scan_hit _ _ _ _ Hpos E), skipn_app.
        replace (len - List.length (c :: pre)) with 0 by lia.
        cbn [skipn map]. right. exact H.
      * (* the match runs past [pre]; it cannot, [pre] not being open *)
        exfalso.
        assert (open_url (c :: pre) = true) as Habs; [| congruence].
        pose proof (url_match_sound _ _ _ E) as
          [s1 [r1 [a1 [Hfull [Hs1 [_ [Hr1 [_ Hf1]]]]]]]].
        assert (len = List.length (s1 ++ r1)) as Hlen
          by (rewrite <- Hf1, length_firstn; lia).
        assert (startswith (c :: pre) s1 = true) as Hst.
        { destruct (url_scheme_head _ Hs) as [t Et].
          rewrite <- (startswith_cross s1 (c :: pre) (t ++ run ++ post) 104%N).
          - apply startswith_spec. exists (r1 ++ a1).
            rewrite <- Hfull, Et. reflexivity.
          - discriminate.
          - destruct Hs1 as [-> | ->]; intros H; vm_compute in H;
              repeat (destruct H as [H | H]; [discriminate H |]); exact H. }
        pose proof (startswith_length _ _ Hst) as Ecp.
        set (k := skipn (List.length s1) (c :: pre)) in *.
        unfold open_url.
        replace (url_scheme (c :: pre)) with (Some (List.length s1))
          by (rewrite Ecp; symmetry; apply url_scheme_app, Hs1).
        fold k.
        rewrite Ecp, <- !app_assoc in Hfull. apply app_inv_head in Hfull.
        (* [k ++ address ++ post = r1 ++ a1], and [r1] is longer than [k] *)
        assert (List.length k < List.length r1) as Hk.
        { apply (f_equal (@List.length _)) in Ecp.
          rewrite length_app in Ecp, Hlen. lia. }
        apply (f_equal (firstn (List.length k))) in Hfull.
        rewrite firstn_length_app, firstn_app in Hfull.
        replace (List.length k - List.length r1) with 0 in Hfull by lia.
        cbn [firstn] in Hfull. rewrite app_nil_r in Hfull.
        rewrite Hfull.
        rewrite <- (firstn_skipn (List.length k) r1), forallb_app in Hr1.
        apply andb_true_iff in Hr1. apply Hr1.
    + cbn [app] in *. rewrite (scan_miss _ _ _ E).
      destruct (IH pre) as [a [before [Ea [Hb H]]]]; [lia | exact Hpre' |].
      exists (c :: a), before. split; [rewrite Ea; reflexivity |]. auto.
Qed.

(** Where an address continues an earlier one, and where it does not. *)
Example ends_in_url_examples :
  ends_in_url (T "url=") = false /\
  ends_in_url (T "see http://a.example/ and ") = false /\
  ends_in_url (T "mirror: http://web.archive.org/web/") = true /\
  ends_in_url (T "https://") = true.
Proof. repeat split; reflexivity. Qed.

(** The example of the specification, a file holding exactly that text. *)
Example url_example :
  findall0 url_pattern (T "https://example.com/path?x=1 and more") =
  [T "https://example.com/path?x=1"].
Proof. reflexivity. Qed.

(** The two examples of the specification for the environment detector. *)
Example env_examples :
  file_env_vars (T "os.environ[" ++ [34%N] ++ T "API_KEY" ++ [34%N] ++ T "]") =
    [T "API_KEY"] /\
  file_env_vars (T "getenv('DB_HOST')") = [T "DB_HOST"].
Proof. split; reflexivity. Qed.

(** * Further properties of the auditor *)

Lemma fst_bind {A B} (m : M A) (f : A -> M B) (r : report) :
  fst (m r) = r -> (forall a r', fst (f a r') = r') ->
  fst (bind m f r) = r.
Proof.
  intros Hm Hf. unfold bind. destruct (m r) as [r' [a|]]; cbn [fst] in *.
  - subst r'. apply Hf.
  - exact Hm.
Qed.

Lemma fst_for {X} (body : X -> M unit) (l : list X) :
  (forall x r, fst (body x r) = r) -> forall r, fst (for_ l body r) = r.
Proof.
  intros Hb. induction l as [|x l IH]; intros r; cbn [for_]; [reflexivity |].
  apply fst_bind; [apply Hb | intros _ r'; apply IH].
Qed.

(** A text that is read while the path is not under the root: the first
    two loops run, the other two leave the report alone. *)
Lemma scan_file_unrooted (root p : path) (content : text) (r : report) :
  relative_to p root = None ->
  scan_file root p (File (Some content)) r =
  ({| network_endpoints :=
        add_all (network_endpoints r) (findall0 url_pattern content);
      env_vars :=
        add_all (env_vars r)
                (filter nonempty (concat (findall3 env_pattern content)));
      dangerous_calls := dangerous_calls r;
      suspicious_blobs := suspicious_blobs r;
      files_scanned := files_scanned r |}, Some tt).
Proof.
  intros Hrel. unfold scan_file, try_pass. f_equal.
  rewrite (bind_eq _ _ r r content) by reflexivity.
  erewrite bind_eq by apply for_modify.
  rewrite fold_add_endpoint.
  erewrite bind_eq.
  2:{ apply (for_fold _ (fun m r =>
        fold_left (fun r g => add_env_var g r) (filter nonempty m) r)).
      intros m r0.
      rewrite (for_fold _ (fun g r => if nonempty g then add_env_var g r else r)).
      - rewrite fold_left_filter. reflexivity.
      - intros g r1. destruct (nonempty g); reflexivity. }
  rewrite (fold_left_map (fun r m => fold_left (fun r g => add_env_var g r) m r)
             (filter nonempty)).
  rewrite (fold_left_concat (fun r g => add_env_var g r)).
  rewrite concat_filter_map, fold_add_env_var.
  cbn [network_endpoints env_vars dangerous_calls suspicious_blobs files_scanned].
  apply fst_bind.
  - apply fst_for. intros blob r0. unfold bind. rewrite Hrel. reflexivity.
  - intros _ r0. apply fst_for. intros fn r1.
    destruct (contains content fn); [| reflexivity].
    unfold bind. rewrite Hrel. reflexivity.
Qed.

(** X1: when [scan_file] is given a readable file whose path does not lie
    under the root, the [ValueError] of [relative_to] is swallowed like a
    read error, but only after the first two detectors have run: the URLs
    and environment names of the text are in the report, and no blob or
    dangerous-call entry is ever added, whatever the text holds. *)
Theorem scan_file_outside_root (root p : path) (content : text) (r : report) :
  relative_to p root = None ->
  scan_file root p (File (Some content)) r =
  ({| network_endpoints :=
        add_all (network_endpoints r) (findall0 url_pattern content);
      env_vars :=
        add_all (env_vars r)
                (filter nonempty (concat (findall3 env_pattern content)));
      dangerous_calls := dangerous_calls r;
      suspicious_blobs := suspicious_blobs r;
      files_scanned := files_scanned r |}, Some tt).
Proof. apply scan_file_unrooted. Qed.

Lemma scan_file_outside_root_witness :
  scan_file repo_root stray_path
    (File (Some (T "eval(x) getenv('HOME') http://a.example/"))) empty_report =
  ({| network_endpoints :=
        add_all (network_endpoints empty_report)
          (findall0 url_pattern (T "eval(x) getenv('HOME') http://a.example/"));
      env_vars :=
        add_all (env_vars empty_report)
          (filter nonempty
             (concat (findall3 env_pattern
                        (T "eval(x) getenv('HOME') http://a.example/"))));
      dangerous_calls := dangerous_calls empty_report;
      suspicious_blobs := suspicious_blobs empty_report;
      files_scanned := files_scanned empty_report |}, Some tt).
Proof.
  apply (scan_file_outside_root repo_root stray_path
           (T "eval(x) getenv('HOME') http://a.example/") empty_report).
  reflexivity.
Defined.

Lemma add_all_incl (s xs : list text) : incl s (add_all s xs).
Proof. intros x Hx. apply add_all_In. left; exact Hx. Qed.

(** X2: [scan_file] only ever adds to the report.  For every entry, path
    and report, the two sequences of the report are prefixes of what they
    become, every endpoint and environment name stays, and [files_scanned]
    is not touched. *)
Theorem scan_file_only_adds (root p : path) (n : node) (r : report) :
  (exists added,
     dangerous_calls (fst (scan_file root p n r)) = dangerous_calls r ++ added) /\
  (exists added,
     suspicious_blobs (fst (scan_file root p n r)) = suspicious_blobs r ++ added) /\
  incl (network_endpoints r) (network_endpoints (fst (scan_file root p n r))) /\
  incl (env_vars r) (env_vars (fst (scan_file root p n r))) /\
  files_scanned (fst (scan_file root p n r)) = files_scanned r.
Proof.
  destruct n as [[content|]| |].
  - destruct (relative_to p root) as [rel|] eqn:E.
    + rewrite (scan_file_read _ _ rel _ _ E). cbn.
      repeat split; eauto using add_all_incl.
    + rewrite (scan_file_unrooted _ _ _ _ E). cbn.
      repeat split; try (exists []; rewrite app_nil_r; reflexivity);
        apply add_all_incl.
  - rewrite scan_file_unread by reflexivity. cbn.
    repeat split; try (exists []; rewrite app_nil_r; reflexivity);
      apply incl_refl.
  - rewrite scan_file_unread by reflexivity. cbn.
    repeat split; try (exists []; rewrite app_nil_r; reflexivity);
      apply incl_refl.
  - rewrite scan_file_unread by reflexivity. cbn.
    repeat split; try (exists []; rewrite app_nil_r; reflexivity);
      apply incl_refl.
Qed.

Lemma visit_any_root (root : path) (r : report) (e : path * node) :
  is_excluded root = false -> visit root r e = visit [] r e.
Proof.
  intros H. unfold visit. rewrite is_excluded_app, H. reflexivity.
Qed.

(** X3: the report does not depend on where the tree lies.  For two roots
    neither of which has an excluded component, [audit] returns the same
    report for the same tree. *)
Theorem audit_any_root (root1 root2 : path) (tree : node) :
  is_excluded root1 = false -> is_excluded root2 = false ->
  audit root1 tree = audit root2 tree.
Proof.
  intros H1 H2. rewrite !audit_fold. f_equal.
  generalize empty_report. induction (rglob [] tree) as [|e l IH]; intros r;
    [reflexivity |].
  cbn [fold_left]. rewrite (visit_any_root root1), (visit_any_root root2)
    by assumption. apply IH.
Qed.

Lemma audit_any_root_witness :
  audit repo_root sample_tree = audit [T "/"; T "srv"; T "ci"] sample_tree.
Proof.
  apply (audit_any_root repo_root [T "/"; T "srv"; T "ci"] sample_tree);
    reflexivity.
Defined.

Lemma blob_match_long (content blob : text) :
  In blob (findall0 blob_pattern content) -> 128 <= List.length blob.
Proof.
  unfold findall0, finditer, blob_pattern. intros H.
  apply in_map_iff in H. destruct H as [[m cs] [<- Hm]]. cbn [fst].
  apply scan_sound in Hm. destruct Hm as [a [b [len [_ [E ->]]]]].
  rewrite rep_match_at in E.
  destruct (Nat.leb 128 (span blob_char b)) eqn:L; [| discriminate].
  apply Nat.leb_le in L. inversion E; subst len cs.
  rewrite length_firstn. pose proof (span_le blob_char b). lia.
Qed.

(** X4: every entry of [suspicious_blobs] reports a length of at least
    128, in every report. *)
Theorem blob_lengths_at_least_128 (root : path) (tree : node) :
  Forall (fun b => 128 <= Blob.length b) (suspicious_blobs (audit root tree)).
Proof.
  rewrite audit_fold. cbn [finalize suspicious_blobs].
  rewrite visit_suspicious_blobs. cbn [empty_report suspicious_blobs app].
  rewrite Forall_forall. intros b Hb. apply in_flat_map in Hb.
  destruct Hb as [e [_ Hb]]. unfold per_file in Hb.
  destruct (text_of root e) as [content|]; [| destruct Hb].
  unfold file_blobs in Hb. apply in_map_iff in Hb.
  destruct Hb as [blob [<- Hblob]]. cbn [Blob.length].
  apply (blob_match_long content), Hblob.
Qed.

Lemma filter_length_bound {X} (p : X -> bool) (l : list X) :
  List.length (filter p l) <= List.length l.
Proof.
  induction l as [|x l IH]; simpl; [lia |]. destruct (p x); simpl; lia.
Qed.

Lemma per_file_calls_bound (root : path) (e : path * node) :
  List.length (per_file root file_calls e) <=
  8 * (if counted root e then 1 else 0).
Proof.
  unfold per_file, text_of, counted.
  destruct (is_excluded (root ++ fst e)); [simpl; lia |].
  destruct (snd e) as [[content|]| |]; cbn [read_text]; try (simpl; lia).
  unfold file_calls. rewrite length_map.
  pose proof (filter_length_bound (contains content) dangerous_fns) as H.
  change (List.length dangerous_fns) with 8 in H. cbn [negb andb is_file]. lia.
Qed.

(** X5: the [call] of every [dangerous_calls] entry is one of the eight
    fixed signatures, and there are at most eight entries per counted
    file: [len(dangerous_calls) <= 8 * files_scanned]. *)
Theorem dangerous_calls_bounded (root : path) (tree : node) :
  Forall (fun c => In (Call.call c) dangerous_fns)
         (dangerous_calls (audit root tree)) /\
  List.length (dangerous_calls (audit root tree)) <=
  8 * files_scanned (audit root tree).
Proof.
  rewrite audit_fold. cbn [finalize dangerous_calls files_scanned].
  rewrite visit_dangerous_calls, visit_files_scanned.
  cbn [empty_report dangerous_calls files_scanned app Nat.add]. split.
  - rewrite Forall_forall. intros c Hc. apply in_flat_map in Hc.
    destruct Hc as [e [_ Hc]]. unfold per_file in Hc.
    destruct (text_of root e) as [content|]; [| destruct Hc].
    unfold file_calls in Hc. apply in_map_iff in Hc.
    destruct Hc as [fn [<- Hfn]]. cbn [Call.call].
    apply filter_In in Hfn. apply Hfn.
  - induction (rglob [] tree) as [|e l IH]; [simpl; lia |].
    cbn [flat_map filter]. rewrite length_app.
    pose proof (per_file_calls_bound root e) as H.
    destruct (counted root e); cbn [List.length]; lia.
Qed.

(** X6: every element of [env_vars] was read from a scanned file: the
    text of some entry that passed the filter holds, around that very
    name, one of the three idioms. *)
Theorem env_vars_come_from_idioms (root : path) (tree : node) :
  Forall (fun name =>
            exists e content pre idiom post i,
              In e (rglob [] tree) /\ text_of root e = Some content /\
              content = pre ++ idiom ++ post /\
              env_idiom i name idiom post)
         (env_vars (audit root tree)).
Proof.
  rewrite Forall_forall. intros x Hx. apply audit_env_vars_In in Hx.
  destruct Hx as [e [content [He [Ht Hx]]]].
  unfold file_env_vars, findall3, finditer in Hx.
  apply filter_In in Hx. destruct Hx as [Hx Hne].
  apply in_concat in Hx. destruct Hx as [tuple [Htu Hin]].
  apply in_map_iff in Htu. destruct Htu as [[m cs] [<- Hm]].
  apply scan_sound in Hm. destruct Hm as [a [b [len [-> [E _]]]]].
  apply env_match_sound in E.
  destruct E as [i [name [idiom [post [-> [Hi [_ [_ [_ ->]]]]]]]]].
  assert (x = name) as ->.
  { cbn [snd] in Hin.
    destruct (env_idiom_index _ _ _ _ Hi) as [-> | [-> | ->]]; cbn in Hin;
      repeat (destruct Hin as [<- | Hin]; try discriminate; try reflexivity);
      destruct Hin. }
  exists e, (a ++ idiom ++ post), a, idiom, post, i. auto.
Qed.

(** X7: every match of the environment pattern yields exactly one name:
    of the three groups of a [findall] tuple one, and only one, is not
    empty. *)
Theorem one_name_per_match (content : text) :
  Forall (fun groups => exists name,
            name <> [] /\ filter nonempty groups = [name])
         (findall3 env_pattern content).
Proof.
  rewrite Forall_forall. intros tuple Htu. unfold findall3, finditer in Htu.
  apply in_map_iff in Htu. destruct Htu as [[m cs] [<- Hm]].
  apply scan_sound in Hm. destruct Hm as [a [b [len [_ [E _]]]]].
  apply env_match_sound in E.
  destruct E as [i [name [idiom [post [_ [Hi [Hne [_ [_ ->]]]]]]]]].
  exists name. split; [exact Hne |]. cbn [snd].
  destruct name as [|c name]; [contradiction |].
  destruct (env_idiom_index _ _ _ _ Hi) as [-> | [-> | ->]]; reflexivity.
Qed.


Lemma Permutation_filter_length {X} (p : X -> bool) (l1 l2 : list X) :
  Permutation l1 l2 ->
  List.length (filter p l1) = List.length (filter p l2).
Proof.
  induction 1 as [|x l1 l2 _ IH|x y l|l1 l2 l3 _ IH1 _ IH2]; simpl.
  - reflexivity.
  - destruct (p x); simpl; rewrite IH; reflexivity.
  - destruct (p x), (p y); reflexivity.
  - rewrite IH1. exact IH2.
Qed.




Lemma rglob_split (es1 es2 : list (text * node)) :
  Permutation (rglob [] (Dir (es1 ++ es2)))
              (rglob [] (Dir es1) ++ rglob [] (Dir es2)).
Proof.
  cbn [rglob]. rewrite map_app, flat_map_app, <- !app_assoc.
  apply Permutation_app_head. rewrite !app_assoc.
  apply Permutation_app_tail, Permutation_app_comm.
Qed.

(** X9: the report of a directory is made of the reports of its parts.
    When the entries of a directory are split in two, [files_scanned] of
    the whole is the sum of the two counts, and an endpoint or environment
    name is in the report of the whole exactly when it is in one of the
    two. *)
Theorem audit_split_directory (root : path) (es1 es2 : list (text * node)) :
  files_scanned (audit root (Dir (es1 ++ es2))) =
    files_scanned (audit root (Dir es1)) + files_scanned (audit root (Dir es2)) /\
  (forall x,
     In x (network_endpoints (audit root (Dir (es1 ++ es2)))) <->
     In x (network_endpoints (audit root (Dir es1))) \/
     In x (network_endpoints (audit root (Dir es2)))) /\
  (forall x,
     In x (env_vars (audit root (Dir (es1 ++ es2)))) <->
     In x (env_vars (audit root (Dir es1))) \/
     In x (env_vars (audit root (Dir es2)))).
Proof.
  pose proof (rglob_split es1 es2) as HP.
  assert (forall e, In e (rglob [] (Dir (es1 ++ es2))) <->
                    In e (rglob [] (Dir es1)) \/ In e (rglob [] (Dir es2))) as Hin.
  { intros e. rewrite <- in_app_iff. split; apply Permutation_in;
      [exact HP | symmetry; exact HP]. }
  split; [| split].
  - rewrite !audit_fold. cbn [finalize files_scanned].
    rewrite !visit_files_scanned. cbn [empty_report files_scanned Nat.add].
    rewrite (Permutation_filter_length _ _ _ HP), filter_app, length_app.
    reflexivity.
  - intros x. rewrite !audit_network_endpoints_In. split.
    + intros [e [c [He H]]]. apply Hin in He. destruct He; [left | right]; eauto.
    + intros [[e [c [He H]]] | [e [c [He H]]]]; exists e, c;
        (split; [apply Hin; auto | exact H]).
  - intros x. rewrite !audit_env_vars_In. split.
    + intros [e [c [He H]]]. apply Hin in He. destruct He; [left | right]; eauto.
    + intros [[e [c [He H]]] | [e [c [He H]]]]; exists e, c;
        (split; [apply Hin; auto | exact H]).
Qed.

Lemma rglob_under (name : text) (es : list (text * node)) :
  rglob [] (Dir [(name, Dir es)]) =
  ([name], Dir es) :: map (entry_under name) (rglob [] (Dir es)).
Proof.
  change (rglob [] (Dir [(name, Dir es)])) with
    ([([name], Dir es)] ++ (rglob [name] (Dir es) ++ [])).
  rewrite app_nil_r, (rglob_root [name]). reflexivity.
Qed.

Lemma text_of_under (root : path) (name : text) (e : path * node) :
  excluded_name name = false ->
  text_of root (entry_under name e) = text_of root e.
Proof.
  intros H. unfold text_of, entry_under. cbn [fst snd].
  rewrite !is_excluded_app, is_excluded_cons, H. reflexivity.
Qed.

Lemma str_path_under (name : text) (rel : path) :
  rel <> [] -> str_path (name :: rel) = name ++ T "/" ++ str_path rel.
Proof. destruct rel as [|x rel]; [congruence | reflexivity]. Qed.

Lemma flat_map_under {X} (root : path) (name : text)
    (f : path -> text -> list X) (g : X -> X) (l : list (path * node)) :
  excluded_name name = false ->
  (forall e content, In e l -> f (name :: fst e) content = map g (f (fst e) content)) ->
  flat_map (per_file root f) (map (entry_under name) l) =
  map g (flat_map (per_file root f) l).
Proof.
  intros Hn. induction l as [|e l IH]; intros Hf; [reflexivity |].
  cbn [map flat_map]. rewrite map_app, IH by (intros; apply Hf; right; assumption).
  f_equal. unfold per_file. rewrite (text_of_under _ _ _ Hn).
  destruct (text_of root e) as [content|]; [| reflexivity].
  apply Hf. left; reflexivity.
Qed.

(** X10: putting a directory one level down, under a name that the filter
    lets through, changes the paths of the findings and nothing else:
    the two sets and the count are the same, and each [dangerous_calls]
    and [suspicious_blobs] entry has [name/] in front of its [file]. *)
Theorem audit_one_level_down (root : path) (name : text)
    (es : list (text * node)) :
  excluded_name name = false ->
  network_endpoints (audit root (Dir [(name, Dir es)])) =
    network_endpoints (audit root (Dir es)) /\
  env_vars (audit root (Dir [(name, Dir es)])) = env_vars (audit root (Dir es)) /\
  files_scanned (audit root (Dir [(name, Dir es)])) =
    files_scanned (audit root (Dir es)) /\
  dangerous_calls (audit root (Dir [(name, Dir es)])) =
    map (call_under name) (dangerous_calls (audit root (Dir es))) /\
  suspicious_blobs (audit root (Dir [(name, Dir es)])) =
    map (blob_under name) (suspicious_blobs (audit root (Dir es))).
Proof.
  intros Hn. rewrite !audit_fold, rglob_under.
  cbn [finalize network_endpoints env_vars files_scanned dangerous_calls
       suspicious_blobs].
  rewrite !visit_network_endpoints, !visit_env_vars, !visit_files_scanned,
    !visit_dangerous_calls, !visit_suspicious_blobs.
  cbn [empty_report network_endpoints env_vars files_scanned dangerous_calls
       suspicious_blobs app Nat.add flat_map filter].
  assert (forall X (f : path -> text -> list X),
            per_file root f ([name], Dir es) = []) as Hdir.
  { intros X f. unfold per_file, text_of. cbn [fst snd read_text].
    destruct (is_excluded (root ++ [name])); reflexivity. }
  assert (counted root ([name], Dir es) = false) as Hc.
  { unfold counted. cbn [snd is_file]. apply andb_false_r. }
  rewrite !Hdir, Hc. cbn [app].
  split; [| split; [| split; [| split]]].
  - rewrite (flat_map_under root name _ (fun x => x)), map_id; auto.
    intros. rewrite map_id. reflexivity.
  - rewrite (flat_map_under root name _ (fun x => x)), map_id; auto.
    intros. rewrite map_id. reflexivity.
  - rewrite filter_map_comm, length_map. f_equal. apply filter_ext.
    intros e. unfold counted, entry_under. cbn [fst snd].
    rewrite !is_excluded_app, is_excluded_cons, Hn. reflexivity.
  - apply flat_map_under; [exact Hn |]. intros e content He.
    unfold file_calls. rewrite map_map. apply map_ext. intros fn.
    unfold call_under. cbn [Call.file Call.call].
    rewrite str_path_under; [reflexivity | apply (rglob_nonempty (Dir es)), He].
  - apply flat_map_under; [exact Hn |]. intros e content He.
    unfold file_blobs. rewrite map_map. apply map_ext. intros blob.
    unfold blob_under. cbn [Blob.file Blob.length].
    rewrite str_path_under; [reflexivity | apply (rglob_nonempty (Dir es)), He].
Qed.

Lemma audit_one_level_down_witness :
  network_endpoints (audit repo_root (Dir [(T "pkg", listed_ab)])) =
    network_endpoints (audit repo_root listed_ab) /\
  env_vars (audit repo_root (Dir [(T "pkg", listed_ab)])) =
    env_vars (audit repo_root listed_ab) /\
  files_scanned (audit repo_root (Dir [(T "pkg", listed_ab)])) =
    files_scanned (audit repo_root listed_ab) /\
  dangerous_calls (audit repo_root (Dir [(T "pkg", listed_ab)])) =
    map (call_under (T "pkg")) (dangerous_calls (audit repo_root listed_ab)) /\
  suspicious_blobs (audit repo_root (Dir [(T "pkg", listed_ab)])) =
    map (blob_under (T "pkg")) (suspicious_blobs (audit repo_root listed_ab)).
Proof.
  apply (audit_one_level_down repo_root (T "pkg")
           [ (T "a.py", File (Some (T "eval(1) http://b.example/ getenv('B')")));
             (T "b.js", File (Some (T "fork() http://a.example/ process.env.A"))) ]).
  reflexivity.
Defined.

(** An address in the text is the tail of a match of the scan, whatever
    stands in front of it. *)
Lemma url_scan_covers (scheme run post : text) :
  scheme = T "http://" \/ scheme = T "https://" ->
  run <> [] -> forallb url_char run = true ->
  starts_outside url_char post = true ->
  forall n pre, List.length pre <= n ->
  exists before cs,
    In (before ++ scheme ++ run, cs)
       (scan url_pattern 0 (pre ++ scheme ++ run ++ post)).
Proof.
  intros Hs Hne Hrun Hpost. induction n as [|n IH]; intros pre Hn.
  - destruct pre; [| simpl in Hn; lia]. exists [], [].
    cbn [app]. rewrite url_scan_head by assumption. left; reflexivity.
  - destruct pre as [|c pre].
    { apply (IH []). simpl; lia. }
    cbn [List.length] in Hn.
    destruct (match_at url_pattern ((c :: pre) ++ scheme ++ run ++ post))
      as [[len cs]|] eqn:E.
    2:{ cbn [app] in *. rewrite (scan_miss _ _ _ E). apply (IH pre). lia. }
    pose proof (match_at_le _ _ _ _ E) as Hle.
    pose proof (url_match_sound _ _ _ E) as
      [scheme' [run' [after [Hsplit [Hs' [Hne' [Hrun' [Hafter Hfirst]]]]]]]].
    assert (len = List.length (scheme' ++ run')) as Hlen.
    { rewrite <- Hfirst, length_firstn. lia. }
    assert (0 < len) as Hpos.
    { rewrite Hlen, length_app. destruct (url_scheme_chars _ Hs'). lia. }
    rewrite (scan_hit _ _ _ _ Hpos E).
    destruct (le_lt_dec len (List.length (c :: pre))) as [Hin | Hout].
    + (* the match ends inside [pre]: go on after it *)
      rewrite skipn_app.
      replace (len - List.length (c :: pre)) with 0 by lia. cbn [skipn].
      destruct (IH (skipn len (c :: pre))) as [before [cs' H]].
      { rewrite length_skipn. cbn [List.length] in *. lia. }
      exists before, cs'. right. exact H.
    + (* the match runs past [pre]: it ends where the address ends *)
      exists (c :: pre), cs. left. f_equal. rewrite Hfirst.
      rewrite (app_assoc scheme run post), (app_assoc scheme' run' after)
        in Hsplit.
      apply app_eq_app in Hsplit. destruct Hsplit as [l [[E1 E2] | [E1 E2]]].
      { exfalso. rewrite E1, length_app in Hout. lia. }
      rewrite E1. f_equal.
      assert (forallb url_char (scheme' ++ run') = true) as Hall.
      { rewrite forallb_app. destruct (url_scheme_chars _ Hs') as [-> _].
        exact Hrun'. }
      rewrite E1, forallb_app in Hall. apply andb_true_iff in Hall.
      destruct Hall as [_ Hl].
      assert (forallb url_char (scheme ++ run) = true) as Hu.
      { rewrite forallb_app. destruct (url_scheme_chars _ Hs) as [-> _].
        exact Hrun. }
      pose proof (span_all url_char _ _ Hu Hpost) as S1.
      pose proof (span_all url_char _ _ Hl Hafter) as S2.
      rewrite E2, S2 in S1.
      apply (f_equal (firstn (List.length l))) in E2.
      rewrite firstn_length_app in E2. rewrite S1, firstn_length_app in E2.
      symmetry. exact E2.
Qed.

(** X11: no address is lost.  When the text of a scanned file holds
    [http://] or [https://] followed by a maximal run of URL characters,
    [network_endpoints] has an element that ends with that address: the
    address itself, or a longer match that began before it. *)
Theorem url_never_lost (root : path) (tree : node) (e : path * node)
    (content pre scheme run post : text) :
  In e (rglob [] tree) -> text_of root e = Some content ->
  content = pre ++ scheme ++ run ++ post ->
  scheme = T "http://" \/ scheme = T "https://" ->
  run <> [] -> forallb url_char run = true ->
  starts_outside url_char post = true ->
  exists before,
    In (before ++ scheme ++ run) (network_endpoints (audit root tree)).
Proof.
  intros He Ht -> Hs Hne Hrun Hpost.
  destruct (url_scan_covers scheme run post Hs Hne Hrun Hpost
              (List.length pre) pre (le_n _)) as [before [cs H]].
  exists before. apply audit_network_endpoints_In.
  exists e, (pre ++ scheme ++ run ++ post).
  split; [exact He | split; [exact Ht |]].
  unfold file_endpoints, findall0, finditer.
  apply in_map_iff. exists (before ++ scheme ++ run, cs). auto.
Qed.

Lemma url_never_lost_witness :
  exists before,
    In (before ++ T "https://" ++ T "example.com/path?x=1")
       (network_endpoints (audit repo_root archive_tree)).
Proof.
  apply (url_never_lost repo_root archive_tree
           ([T "notes.txt"],
            File (Some (T "mirror: http://web.archive.org/web/https://example.com/path?x=1 and more")))
           (T "mirror: http://web.archive.org/web/https://example.com/path?x=1 and more")
           (T "mirror: http://web.archive.org/web/")
           (T "https://") (T "example.com/path?x=1") (T " and more")).
  - simpl. auto.
  - reflexivity.
  - reflexivity.
  - right. reflexivity.
  - discriminate.
  - reflexivity.
  - reflexivity.
Defined.

Lemma set_add_present (x : text) (s : list text) : In x s -> set_add x s = s.
Proof.
  intros H. unfold set_add. apply existsb_text_eqb in H. rewrite H. reflexivity.
Qed.

Lemma add_all_absorb (xs s : list text) : incl xs s -> add_all s xs = s.
Proof.
  revert s; induction xs as [|x xs IH]; intros s H; [reflexivity |].
  change (add_all s (x :: xs)) with (add_all (set_add x s) xs).
  rewrite set_add_present by (apply H; left; reflexivity).
  apply IH. intros y Hy. apply H. right; exact Hy.
Qed.

Lemma add_all_twice (s xs : list text) :
  add_all (add_all s xs) xs = add_all s xs.
Proof.
  apply add_all_absorb. intros x Hx. apply add_all_In. right; exact Hx.
Qed.

(** X12: scanning the same file a second time shows the two kinds of
    field.  The second [scan_file] leaves [network_endpoints] and
    [env_vars] as the first one made them, and appends to
    [dangerous_calls] and [suspicious_blobs] the same entries once more. *)
Theorem scan_file_twice (root p rel : path) (content : text) (r : report) :
  relative_to p root = Some rel ->
  network_endpoints
    (fst (scan_file root p (File (Some content))
            (fst (scan_file root p (File (Some content)) r)))) =
  network_endpoints (fst (scan_file root p (File (Some content)) r)) /\
  env_vars
    (fst (scan_file root p (File (Some content))
            (fst (scan_file root p (File (Some content)) r)))) =
  env_vars (fst (scan_file root p (File (Some content)) r)) /\
  (exists added,
     dangerous_calls (fst (scan_file root p (File (Some content)) r)) =
       dangerous_calls r ++ added /\
     dangerous_calls
       (fst (scan_file root p (File (Some content))
               (fst (scan_file root p (File (Some content)) r)))) =
       dangerous_calls r ++ added ++ added) /\
  (exists added,
     suspicious_blobs (fst (scan_file root p (File (Some content)) r)) =
       suspicious_blobs r ++ added /\
     suspicious_blobs
       (fst (scan_file root p (File (Some content))
               (fst (scan_file root p (File (Some content)) r)))) =
       suspicious_blobs r ++ added ++ added).
Proof.
  intros Hrel. rewrite !(scan_file_read _ _ rel _ _ Hrel).
  cbn [fst scanned network_endpoints env_vars dangerous_calls suspicious_blobs].
  rewrite !add_all_twice.
  split; [reflexivity | split; [reflexivity | split]].
  - exists (file_calls rel content). rewrite <- app_assoc. auto.
  - exists (file_blobs rel content). rewrite <- app_assoc. auto.
Qed.

Lemma scan_file_twice_witness :
  network_endpoints
    (fst (scan_file repo_root (repo_root ++ [T "a.py"])
            (File (Some (T "eval(1) http://b.example/ getenv('B')")))
            (fst (scan_file repo_root (repo_root ++ [T "a.py"])
                    (File (Some (T "eval(1) http://b.example/ getenv('B')")))
                    empty_report)))) =
  network_endpoints
    (fst (scan_file repo_root (repo_root ++ [T "a.py"])
            (File (Some (T "eval(1) http://b.example/ getenv('B')")))
            empty_report)) /\
  env_vars
    (fst (scan_file repo_root (repo_root ++ [T "a.py"])
            (File (Some (T "eval(1) http://b.example/ getenv('B')")))
            (fst (scan_file repo_root (repo_root ++ [T "a.py"])
                    (File (Some (T "eval(1) http://b.example/ getenv('B')")))
                    empty_report)))) =
  env_vars
    (fst (scan_file repo_root (repo_root ++ [T "a.py"])
            (File (Some (T "eval(1) http://b.example/ getenv('B')")))
            empty_report)) /\
  (exists added,
     dangerous_calls
       (fst (scan_file repo_root (repo_root ++ [T "a.py"])
               (File (Some (T "eval(1) http://b.example/ getenv('B')")))
               empty_report)) =
       dangerous_calls empty_report ++ added /\
     dangerous_calls
       (fst (scan_file repo_root (repo_root ++ [T "a.py"])
               (File (Some (T "eval(1) http://b.example/ getenv('B')")))
               (fst (scan_file repo_root (repo_root ++ [T "a.py"])
                       (File (Some (T "eval(1) http://b.example/ getenv('B')")))
                       empty_report)))) =
       dangerous_calls empty_report ++ added ++ added) /\
  (exists added,
     suspicious_blobs
       (fst (scan_file repo_root (repo_root ++ [T "a.py"])
               (File (Some (T "eval(1) http://b.example/ getenv('B')")))
               empty_report)) =
       suspicious_blobs empty_report ++ added /\
     suspicious_blobs
       (fst (scan_file repo_root (repo_root ++ [T "a.py"])
               (File (Some (T "eval(1) http://b.example/ getenv('B')")))
               (fst (scan_file repo_root (repo_root ++ [T "a.py"])
                       (File (Some (T "eval(1) http://b.example/ getenv('B')")))
                       empty_report)))) =
       suspicious_blobs empty_report ++ added ++ added).
Proof.
  apply (scan_file_twice repo_root (repo_root ++ [T "a.py"]) [T "a.py"]
           (T "eval(1) http://b.example/ getenv('B')") empty_report).
  reflexivity.
Defined.
